(** * Verification of the instruction store, trace and CFG builder of tracker

    Shallow embedding of [src/src/traces.c] (instructions, hashtable of
    instructions, execution traces) and of [src/src/trace.c] (classified
    instructions and the dynamic control-flow graph builder).

    Conventions of the embedding:
    - a byte is a [Byte.byte]; [u8] gives its unsigned value;
    - a [uint64_t] is a [Z] in [0, 2^64); every arithmetic operation that
      can leave that range is followed by [wrap64];
    - a pointer to a heap object is a [nat] handle into an explicit store;
    - [None] at the outer level of a stateful operation stands for a crash
      (NULL dereference, out-of-bounds access of a fixed-size array). *)

From Stdlib Require Import ZArith Lia String.
From stdpp Require Import base list.

Open Scope Z_scope.

(** ** Machine integers and bytes *)

Definition wrap64 (x : Z) : Z := x mod 2 ^ 64.
Definition wrap16 (x : Z) : Z := x mod 2 ^ 16.

Definition u8 (b : Byte.byte) : Z := Z.of_N (Byte.to_N b).

(** [buf[i]] for a [const uint8_t *buf]. *)
Definition byte_at (buf : list Byte.byte) (i : nat) : Z :=
  u8 (nth i buf Byte.x00).

(** ** fasthash64 (identical in traces.c and trace.c) *)

(** The [mix] macro: [h ^= h >> 23; h *= 0x2127598bf4325c37; h ^= h >> 47]. *)
Definition mix (h : Z) : Z :=
  let h := Z.lxor h (Z.shiftr h 23) in
  let h := wrap64 (h * 0x2127598bf4325c37) in
  Z.lxor h (Z.shiftr h 47).

Definition fasthash_m : Z := 0x880355f21e6d1965.

(** [v = *pos] for [const uint64_t *pos] at byte offset [off]: an x86
    (little-endian) load of eight bytes. *)
Definition load64 (buf : list Byte.byte) (off : nat) : Z :=
  byte_at buf off
  + byte_at buf (off + 1) * 2 ^ 8
  + byte_at buf (off + 2) * 2 ^ 16
  + byte_at buf (off + 3) * 2 ^ 24
  + byte_at buf (off + 4) * 2 ^ 32
  + byte_at buf (off + 5) * 2 ^ 40
  + byte_at buf (off + 6) * 2 ^ 48
  + byte_at buf (off + 7) * 2 ^ 56.

(** The [switch (len & 7)] with its fall-through cases; [r] is [len & 7]
    and [pos2] the byte offset reached by the block loop. *)
Definition fasthash64_tail (buf : list Byte.byte) (pos2 : nat) (r h : Z) : Z :=
  let v := 0 in
  let v := if 7 <=? r then Z.lxor v (Z.shiftl (byte_at buf (pos2 + 6)) 48) else v in
  let v := if 6 <=? r then Z.lxor v (Z.shiftl (byte_at buf (pos2 + 5)) 40) else v in
  let v := if 5 <=? r then Z.lxor v (Z.shiftl (byte_at buf (pos2 + 4)) 32) else v in
  let v := if 4 <=? r then Z.lxor v (Z.shiftl (byte_at buf (pos2 + 3)) 24) else v in
  let v := if 3 <=? r then Z.lxor v (Z.shiftl (byte_at buf (pos2 + 2)) 16) else v in
  let v := if 2 <=? r then Z.lxor v (Z.shiftl (byte_at buf (pos2 + 1)) 8) else v in
  if 1 <=? r then
    let v := Z.lxor v (byte_at buf pos2) in
    wrap64 (Z.lxor h (mix v) * fasthash_m)
  else h.

(** [while (pos != end) { v = *pos++; h ^= mix(v); h *= m; }], followed by
    the switch on the remaining bytes; [cnt] is the number of blocks left. *)
Fixpoint fasthash64_loop (buf : list Byte.byte) (pos : nat) (cnt : nat) (r h : Z) : Z :=
  match cnt with
  | O => fasthash64_tail buf pos r h
  | S c =>
      let v := load64 buf pos in
      fasthash64_loop buf (pos + 8) c r (wrap64 (Z.lxor h (mix v) * fasthash_m))
  end.

(** [hash_t fasthash64 (const uint8_t *buf, size_t len, uint64_t seed)]. *)
Definition fasthash64 (buf : list Byte.byte) (len seed : Z) : Z :=
  let h := Z.lxor seed (wrap64 (len * fasthash_m)) in
  mix (fasthash64_loop buf 0 (Z.to_nat (len / 8)) (Z.land len 7) h).

(** *** fasthash64 as §4.B of the specification describes it

    Second definition, written from the specification's words, to be
    compared with [fasthash64] above. *)
Module FasthashSpec.

Definition m : Z := 0x880355f21e6d1965.

Definition mix_spec (h : Z) : Z :=
  let t := wrap64 (Z.lxor h (Z.shiftr h 23) * 0x2127598bf4325c37) in
  Z.lxor t (Z.shiftr t 47).

(** Little-endian value of a byte sequence. *)
Fixpoint le_value (bs : list Byte.byte) : Z :=
  match bs with
  | [] => 0
  | b :: bs => u8 b + 2 ^ 8 * le_value bs
  end.

(** Split into 8-byte blocks and the trailing 0..7 bytes. *)
Fixpoint blocks (bs : list Byte.byte) : list (list Byte.byte) * list Byte.byte :=
  match bs with
  | b0 :: b1 :: b2 :: b3 :: b4 :: b5 :: b6 :: b7 :: rest =>
      let '(bl, tl) := blocks rest in ([b0; b1; b2; b3; b4; b5; b6; b7] :: bl, tl)
  | _ => ([], bs)
  end.

(** The [i]-th remaining byte shifted left by [8*i] bits, accumulated. *)
Fixpoint accumulate (i : nat) (bs : list Byte.byte) (v : Z) : Z :=
  match bs with
  | [] => v
  | b :: bs => accumulate (S i) bs (Z.lor v (Z.shiftl (u8 b) (8 * Z.of_nat i)))
  end.

Definition fold_step (h v : Z) : Z := wrap64 (Z.lxor h (mix_spec v) * m).

Definition fasthash64_spec (bs : list Byte.byte) (seed : Z) : Z :=
  let len := Z.of_nat (length bs) in
  let h0 := Z.lxor seed (wrap64 (len * m)) in
  let '(bl, tl) := blocks bs in
  let h1 := fold_left (fun h blk => fold_step h (le_value blk)) bl h0 in
  let h2 := match tl with [] => h1 | _ => fold_step h1 (accumulate 0 tl 0) end in
  mix_spec h2.

End FasthashSpec.

(** ** src/src/traces.c *)

Module Traces.

(** [struct _instr_t]; its [type] field is never assigned in traces.c and
    is left out. [address] is a [uintptr_t], [size] a [uint8_t]. *)
Record instr := mk_instr {
  address : Z;
  size : Z;
  opcodes : list Byte.byte
}.

(** [instr_new]: [EINVAL] (NULL) when [size == 0]; the opcodes are copied
    with [memcpy (instr->opcodes, opcodes, size)]. *)
Definition instr_new (addr size : Z) (ops : list Byte.byte) : option instr :=
  if size =? 0 then None
  else Some {| address := addr; size := size; opcodes := firstn (Z.to_nat size) ops |}.

Definition hash_instr (i : instr) : Z :=
  fasthash64 (opcodes i) (size i) (address i).

(** [struct _hashtable_t]: a bucket is NULL ([None]) or a NULL-terminated
    array of instruction pointers (the list of its non-NULL cells). The
    [size_t] counters are kept as [Z]: they count records held in memory
    and stay far below [2^64]. *)
Record hashtable := mk_hashtable {
  ht_size : Z;
  collisions : Z;
  entries : Z;
  buckets : list (option (list instr))
}.

(** [hashtable_new (const size_t size)]. *)
Definition hashtable_new (sz : N) : option hashtable :=
  if (sz =? 0)%N then None
  else Some {| ht_size := Z.of_N sz; collisions := 0; entries := 0;
               buckets := repeat None (N.to_nat sz) |}.

(** [strncmp] on the opcode arrays, read as [unsigned char]: it stops at
    the first difference, at the first NUL byte, or after [n] bytes. *)
Fixpoint strncmp (s1 s2 : list Byte.byte) (n : nat) : Z :=
  match n with
  | O => 0
  | S n' =>
      match s1, s2 with
      | c1 :: r1, c2 :: r2 =>
          if u8 c1 =? u8 c2 then
            if u8 c1 =? 0 then 0 else strncmp r1 r2 n'
          else u8 c1 - u8 c2
      | _, _ => 0 (* not reached: both arrays hold [n] bytes *)
      end
  end.

(** The test of the scanning loops of [hashtable_insert] and
    [hashtable_lookup]: [bucket_instr[k]] matches [instr]. *)
Definition same_entry (k i : instr) : bool :=
  (address k =? address i) && (size k =? size i)
  && (strncmp (opcodes k) (opcodes i) (Z.to_nat (size i)) =? 0).

Definition bucket_index (ht : hashtable) (i : instr) : nat :=
  Z.to_nat (hash_instr i mod ht_size ht).

Definition bucket (ht : hashtable) (index : nat) : option (list instr) :=
  nth index (buckets ht) None.

(** [hashtable_insert] (allocation failures are not modelled). *)
Definition hashtable_insert (ht : hashtable) (i : instr) : bool * hashtable :=
  let index := bucket_index ht i in
  match bucket ht index with
  | None =>
      (true, {| ht_size := ht_size ht; collisions := collisions ht;
                entries := entries ht + 1;
                buckets := <[index := Some [i]]> (buckets ht) |})
  | Some b =>
      if existsb (fun k => same_entry k i) b then (false, ht)
      else
        (true, {| ht_size := ht_size ht; collisions := collisions ht + 1;
                  entries := entries ht + 1;
                  buckets := <[index := Some (b ++ [i])]> (buckets ht) |})
  end.

Definition hashtable_lookup (ht : hashtable) (i : instr) : bool :=
  match bucket ht (bucket_index ht i) with
  | None => false
  | Some b => existsb (fun k => same_entry k i) b
  end.

Definition hashtable_entries (ht : hashtable) : Z := entries ht.
Definition hashtable_collisions (ht : hashtable) : Z := collisions ht.

Definition hashtable_filled_buckets (ht : hashtable) : Z :=
  fold_left (fun count index =>
               count + match bucket ht index with Some _ => 1 | None => 0 end)
            (seq 0 (Z.to_nat (ht_size ht))) 0.

(** Outcome of the trace operations: a value, [NULL]/[-1] with
    [errno = EINVAL], or a NULL dereference. *)
Inductive result (A : Type) :=
| Ok (a : A)
| Einval
| Crash.
Arguments Ok {A} a.
Arguments Einval {A}.
Arguments Crash {A}.

(** A trace is its linked list of nodes from [head] to [tail], each node
    holding an instruction pointer (a handle, never NULL: [trace_append]
    refuses NULL). The empty list is [head == NULL]. *)
Definition trace := list nat.

Definition trace_new : trace := [].

(** [trace_append]; a NULL [instr] is [None]. *)
Definition trace_append (tr : trace) (i : option nat) : result trace :=
  match i with
  | None => Einval
  | Some p => Ok (tr ++ [p])
  end.

(** The loop of [trace_get]: [current] is the list from the current node
    on, [steps] the remaining iterations [index - 1 - k]. *)
Fixpoint trace_get_loop (current : list nat) (steps : nat) : result (option nat) :=
  match steps with
  | O =>
      match current with
      | [] => Crash (* current->instr with current == NULL *)
      | p :: _ => Ok (Some p)
      end
  | S s =>
      match current with
      | [] => Crash (* current->next with current == NULL *)
      | _ :: next =>
          match next with
          | [] => Ok None
          | _ => trace_get_loop next s
          end
      end
  end.

Definition trace_get (tr : trace) (index : Z) : result (option nat) :=
  if index <? 1 then Einval
  else trace_get_loop tr (Z.to_nat (index - 1)).

Fixpoint trace_length (tr : trace) : Z :=
  match tr with
  | [] => 0
  | _ :: next => trace_length next + 1
  end.

(** The loop of [trace_compare], entered with two non-NULL nodes. *)
Fixpoint compare_loop (n1 n2 : list nat) (count : Z) : Z :=
  match n1, n2 with
  | x :: r1, y :: r2 =>
      if Nat.eqb x y then
        let count := count + 1 in
        match r1, r2 with
        | [], [] => 0
        | [], _ :: _ | _ :: _, [] => count
        | _, _ => compare_loop r1 r2 count
        end
      else count
  | _, _ => count (* not reached *)
  end.

Definition trace_compare (t1 t2 : trace) : Z :=
  let count := 1 in
  match t1, t2 with
  | [], _ | _, [] => count
  | _, _ => compare_loop t1 t2 count
  end.

(** Bookkeeping for statements about sequences of insertions: for each
    call, whether the selected bucket was empty before, whether it is
    non-empty after, and the returned boolean. *)
Fixpoint insert_all (ht : hashtable) (l : list instr)
  : hashtable * list (bool * bool * bool) :=
  match l with
  | [] => (ht, [])
  | i :: l =>
      let index := bucket_index ht i in
      let '(res, ht') := hashtable_insert ht i in
      let was_empty := match bucket ht index with None => true | Some _ => false end in
      let now_filled := match bucket ht' index with None => false | Some _ => true end in
      let '(htf, obs) := insert_all ht' l in
      (htf, (was_empty, now_filled, res) :: obs)
  end.

Fixpoint count_if {A} (f : A -> bool) (l : list A) : Z :=
  match l with
  | [] => 0
  | x :: l => (if f x then 1 else 0) + count_if f l
  end.

(** Identity of an instruction as the specification defines it. *)
Definition same_identity (k i : instr) : Prop :=
  address k = address i /\ size k = size i /\ opcodes k = opcodes i.

End Traces.

(** The hashtable test of tests/test_traces.c: ten instructions in a
    table of four buckets. *)
Module TracesTests.
Import Traces.
Definition ops6 := [Byte.x88; Byte.x99; Byte.xaa; Byte.xbb; Byte.xcc; Byte.xde; Byte.xad; Byte.xbe; Byte.xef; Byte.xca].
Definition ins := [ mk_instr 0xdeadbeef 4 [Byte.x00; Byte.x11; Byte.x22; Byte.x77];
  mk_instr 0xabad1dea 2 [Byte.xbb; Byte.xcc];
  mk_instr 0xcafebabe 3 [Byte.xdd; Byte.xee; Byte.xff];
  mk_instr 0xdeadbeef 4 [Byte.x00; Byte.x11; Byte.x22; Byte.x33];
  mk_instr 0xf001beef 5 [Byte.x44; Byte.x55; Byte.x66; Byte.x77];
  mk_instr 0xdeadbeef 6 (firstn 6 ops6);
  mk_instr 0xac001dad 7 (firstn 7 ops6);
  mk_instr 0xfedcbaaa 8 (firstn 8 ops6);
  mk_instr 0xffffffff 9 (firstn 9 ops6);
  mk_instr 0xeeeeeeee 10 ops6 ].
Definition ht4 : hashtable :=
  {| ht_size := 4; collisions := 0; entries := 0; buckets := repeat None 4 |}.
Definition run := fold_left (fun ht i => snd (hashtable_insert ht i)) ins ht4.
End TracesTests.

(** ** src/src/trace.c *)

Module Trace.

(** [instr_type_t]: 0 = instr, 1 = branch, 2 = call, 3 = jmp, 4 = ret. *)
Inductive instr_type := BASIC | BRANCH | CALL | JUMP | RET.

Definition instr_type_eqb (a b : instr_type) : bool :=
  match a, b with
  | BASIC, BASIC | BRANCH, BRANCH | CALL, CALL | JUMP, JUMP | RET, RET => true
  | _, _ => false
  end.

Record instr := mk_instr {
  address : Z;
  type : instr_type;
  size : Z;
  opcodes : list Byte.byte
}.

(** [strstr (haystack, needle) != NULL]: the offset of the first
    occurrence. *)
Fixpoint strstr (haystack needle : string) : option nat :=
  if String.prefix needle haystack then Some O
  else match haystack with
       | EmptyString => None
       | String _ rest =>
           match strstr rest needle with
           | Some k => Some (S k)
           | None => None
           end
       end.

Definition found (o : option nat) : bool :=
  match o with Some _ => true | None => false end.

(** [instr_new (addr, size, opcodes, str_name)]. The classification reads
    [opcodes[0]] and [opcodes[1]] of the caller's buffer (the 16 bytes
    fetched at the instruction pointer). *)
Definition instr_new (addr size : Z) (ops : list Byte.byte) (str_name : string)
  : option instr :=
  if size =? 0 then None
  else
    let o0 := byte_at ops 0 in
    let o1 := byte_at ops 1 in
    let ty :=
      if ((0x70 <=? o0) && (o0 <=? 0x7F))
         || ((o0 =? 0x0F) && (0x80 <=? o1) && (o1 <=? 0x8F)) then BRANCH
      else if (o0 =? 0xE8)
              || (o0 =? 0x9A)
              || ((o0 =? 0xFF) && ((size =? 2) || (size =? 3)))
              || ((o0 =? 0x41) && (o1 =? 0xFF) && found (strstr str_name "call")) then CALL
      else if ((0xE9 <=? o0) && (o0 <=? 0xEB))
              || ((o0 =? 0xFF) && ((size =? 4) || (size =? 5)))
              || ((0xE0 <=? o0) && (o0 <=? 0xE3))
              || ((o0 =? 0x41) && (o1 =? 0xFF) && found (strstr str_name "jmp")) then JUMP
      else if (((o0 =? 0xC3) || (o0 =? 0xCB)) && (size =? 1))
              || (((o0 =? 0xC2) || (o0 =? 0xCA)) && (size =? 3))
              || ((o0 =? 0xF3) && (o1 =? 0xC3) && (size =? 2)) then RET
      else BASIC in
    Some {| address := addr; type := ty; size := size;
            opcodes := firstn (Z.to_nat size) ops |}.

Definition hash_instr (i : instr) : Z :=
  fasthash64 (opcodes i) (size i) (address i).

(** [struct _cfg_t]. [successor] is the allocated successor array, one
    cell per pointer slot ([None] is NULL or a not yet written cell);
    [str_graph] is left out. The instruction record is never mutated and
    is kept by value. *)
Record cfg_node := mk_node {
  instruction : instr;
  nb_in : Z;
  nb_out : Z;
  name : Z;
  successor : list (option nat)
}.

(** The hashtable of trace.c, whose buckets hold CFG nodes. *)
Record hashtable := mk_hashtable {
  ht_size : Z;
  collisions : Z;
  entries : Z;
  buckets : list (option (list nat))
}.

(** The heap of CFG nodes (a handle is an index) together with the table
    and the globals [depth], [nb_name], [stack[256]] and
    [function_entry[256]]. *)
Record state := mk_state {
  nodes : list cfg_node;
  table : hashtable;
  depth : Z;
  nb_name : Z;
  stack : list (option nat);
  function_entry : list (option nat)
}.

(** *** A state monad with crashes *)

Definition M (A : Type) := state -> option (A * state).

Definition ret {A} (a : A) : M A := fun st => Some (a, st).
Definition crash {A} : M A := fun _ => None.
Definition bind {A B} (m : M A) (k : A -> M B) : M B :=
  fun st => match m st with
            | None => None
            | Some (a, st') => k a st'
            end.

Notation "'let!' x := m 'in' k" := (bind m (fun x => k))
  (at level 200, x name, m at level 100, k at level 200).

Definition get : M state := fun st => Some (st, st).
Definition put (st : state) : M unit := fun _ => Some (tt, st).

Definition set_nodes (st : state) (ns : list cfg_node) : state :=
  {| nodes := ns; table := table st; depth := depth st; nb_name := nb_name st;
     stack := stack st; function_entry := function_entry st |}.
Definition set_table (st : state) (t : hashtable) : state :=
  {| nodes := nodes st; table := t; depth := depth st; nb_name := nb_name st;
     stack := stack st; function_entry := function_entry st |}.
Definition set_depth (st : state) (d : Z) : state :=
  {| nodes := nodes st; table := table st; depth := d; nb_name := nb_name st;
     stack := stack st; function_entry := function_entry st |}.
Definition set_nb_name (st : state) (k : Z) : state :=
  {| nodes := nodes st; table := table st; depth := depth st; nb_name := k;
     stack := stack st; function_entry := function_entry st |}.
Definition set_stack (st : state) (s : list (option nat)) : state :=
  {| nodes := nodes st; table := table st; depth := depth st; nb_name := nb_name st;
     stack := s; function_entry := function_entry st |}.
Definition set_function_entry (st : state) (f : list (option nat)) : state :=
  {| nodes := nodes st; table := table st; depth := depth st; nb_name := nb_name st;
     stack := stack st; function_entry := f |}.

(** Dereference of a node pointer. *)
Definition get_node (h : nat) : M cfg_node :=
  fun st => match nodes st !! h with
            | Some n => Some (n, st)
            | None => None
            end.

Definition put_node (h : nat) (n : cfg_node) : M unit :=
  fun st => if decide (h < length (nodes st))%nat
            then Some (tt, set_nodes st (<[h := n]> (nodes st)))
            else None.

(** [a[i]] and [a[i] = v] on an array of [length a] cells. *)
Definition cell_read (a : list (option nat)) (i : Z) : M (option nat) :=
  if (0 <=? i) && (i <? Z.of_nat (length a)) then ret (nth (Z.to_nat i) a None)
  else crash.

Definition cell_write (a : list (option nat)) (i : Z) (v : option nat)
  : M (list (option nat)) :=
  if (0 <=? i) && (i <? Z.of_nat (length a)) then ret (<[Z.to_nat i := v]> a)
  else crash.

Definition with_successor (n : cfg_node) (s : list (option nat)) : cfg_node :=
  {| instruction := instruction n; nb_in := nb_in n; nb_out := nb_out n;
     name := name n; successor := s |}.
Definition with_nb_out (n : cfg_node) (k : Z) : cfg_node :=
  {| instruction := instruction n; nb_in := nb_in n; nb_out := k;
     name := name n; successor := successor n |}.
Definition with_nb_in (n : cfg_node) (k : Z) : cfg_node :=
  {| instruction := instruction n; nb_in := k; nb_out := nb_out n;
     name := name n; successor := successor n |}.
Definition with_name (n : cfg_node) (k : Z) : cfg_node :=
  {| instruction := instruction n; nb_in := nb_in n; nb_out := nb_out n;
     name := k; successor := successor n |}.


Definition is_some (o : option nat) : bool :=
  match o with Some _ => true | None => false end.

(** *** Hashtable of CFG nodes (identity: the instruction address) *)

Definition hashtable_new (sz : N) : option hashtable :=
  if (sz =? 0)%N then None
  else Some {| ht_size := Z.of_N sz; collisions := 0; entries := 0;
               buckets := repeat None (N.to_nat sz) |}.

Definition bucket_index (t : hashtable) (i : instr) : nat :=
  Z.to_nat (hash_instr i mod ht_size t).

Definition node_address (h : nat) : M Z :=
  let! n := get_node h in ret (address (instruction n)).

(** The [while (ht->buckets[index][k] != NULL)] scan for an address. *)
Fixpoint find_address (b : list nat) (a : Z) : M (option nat) :=
  match b with
  | [] => ret None
  | h :: b' =>
      let! x := node_address h in
      if x =? a then ret (Some h) else find_address b' a
  end.

Definition hashtable_lookup (i : instr) : M (option nat) :=
  let! st := get in
  let t := table st in
  match nth (bucket_index t i) (buckets t) None with
  | None => ret None
  | Some b => find_address b (address i)
  end.

Definition hashtable_insert (h : nat) : M bool :=
  let! n := get_node h in
  let i := instruction n in
  let! st := get in
  let t := table st in
  let index := bucket_index t i in
  match nth index (buckets t) None with
  | None =>
      let! _ := put (set_table st
                {| ht_size := ht_size t; collisions := collisions t;
                   entries := entries t + 1;
                   buckets := <[index := Some [h]]> (buckets t) |}) in
      ret true
  | Some b =>
      let! dup := find_address b (address i) in
      match dup with
      | Some _ => ret true
      | None =>
          let! st := get in
          let t := table st in
          let! _ := put (set_table st
                    {| ht_size := ht_size t; collisions := collisions t + 1;
                       entries := entries t + 1;
                       buckets := <[index := Some (b ++ [h])]> (buckets t) |}) in
          ret true
      end
  end.

(** *** CFG nodes *)

(** Number of pointer cells of [calloc (1, sizeof (cfg_t))] and
    [calloc (2, sizeof (cfg_t))]: [sizeof (cfg_t)] is 32 bytes, four
    pointers. *)
Definition initial_slots (ty : instr_type) : nat :=
  if instr_type_eqb ty BASIC then 4%nat else 8%nat.

(** [cfg_new (ht, ins, str)]: the node is zero-initialised by [calloc]
    (so [name] is 0, the [nb_name == 0] case included) and registered in
    the table. *)
Definition cfg_new (ins : instr) : M nat :=
  let! st := get in
  let h := length (nodes st) in
  let! _ := put (set_nodes st (nodes st ++
             [{| instruction := ins; nb_in := 0; nb_out := 0; name := 0;
                 successor := repeat None (initial_slots (type ins)) |}])) in
  let! _ := hashtable_insert h in
  ret h.

Fixpoint is_power_2_loop (fuel : nat) (n : Z) : bool :=
  match fuel with
  | O => false
  | S f => if Z.even n then (if n =? 2 then true else is_power_2_loop f (n / 2))
           else false
  end.

(** [is_power_2 (uint16_t n)]; 16 halvings exhaust any [uint16_t]. *)
Definition is_power_2 (n : Z) : bool :=
  if n =? 0 then false else is_power_2_loop 16 n.

(** [realloc] to [k] cells: the old contents up to [k], fresh cells
    unwritten. *)
Definition realloc_slots (s : list (option nat)) (k : nat) : list (option nat) :=
  take k s ++ repeat None (k - length s).

(** [if (is_power_2 (CFG->nb_out)) CFG->successor = realloc (...)]. *)
Definition grow (src : nat) : M unit :=
  let! c := get_node src in
  if is_power_2 (nb_out c)
  then put_node src (with_successor c (realloc_slots (successor c)
                                        (Z.to_nat (2 * nb_out c))))
  else ret tt.

(** The successor array of [c] after [grow]. *)
Definition grown_slots (c : cfg_node) : list (option nat) :=
  if is_power_2 (nb_out c)
  then realloc_slots (successor c) (Z.to_nat (2 * nb_out c))
  else successor c.

(** [CFG->successor[slot] = new; CFG->nb_out++; new->nb_in++;
    new->name = CFG->name;], each statement on the current store, so that
    [CFG == new] is handled as in C. *)
Definition link (src new : nat) (slot : Z) : M unit :=
  let! c := get_node src in
  let! s := cell_write (successor c) slot (Some new) in
  let! _ := put_node src (with_successor c s) in
  let! c := get_node src in
  let! _ := put_node src (with_nb_out c (wrap16 (nb_out c + 1))) in
  let! m := get_node new in
  let! _ := put_node new (with_nb_in m (wrap16 (nb_in m + 1))) in
  let! c := get_node src in
  let! m := get_node new in
  put_node new (with_name m (name c)).

Definition stack_read (d : Z) : M (option nat) :=
  let! st := get in cell_read (stack st) d.

Definition stack_write (d : Z) (v : option nat) : M unit :=
  let! st := get in
  let! s := cell_write (stack st) d v in
  put (set_stack st s).

(** [aux_cfg_insert (CFG, new)]; [None] is the NULL return. *)
Definition aux_cfg_insert (CFG new : nat) : M (option nat) :=
  let! c := get_node CFG in
  let! first_free :=
    (if instr_type_eqb (type (instruction c)) RET then ret false
     else let! s0 := cell_read (successor c) 0 in ret (negb (is_some s0))) in
  if first_free then
    let! _ := link CFG new 0 in ret (Some new)
  else
    match type (instruction c) with
    | BRANCH =>
        if 2 <=? nb_out c then ret None
        else let! _ := link CFG new 1 in ret (Some new)
    | JUMP =>
        let! _ := grow CFG in
        let! c := get_node CFG in
        let! _ := link CFG new (nb_out c) in
        ret (Some new)
    | RET =>
        let! st := get in
        let! _ := put (set_depth st (wrap16 (depth st - 1))) in
        let! st := get in
        let! top := stack_read (depth st) in
        match top with
        | None => crash
        | Some caller =>
            let! m := get_node new in
            let! k := get_node caller in
            let! src :=
              (if address (instruction m)
                  =? wrap64 (address (instruction k) + size (instruction k))
               then let! _ := stack_write (depth st) None in ret caller
               else let! st := get in
                    let! _ := put (set_depth st (wrap16 (depth st + 1))) in
                    ret CFG) in
            let! _ := grow src in
            let! c := get_node src in
            let! _ := link src new (nb_out c) in
            ret (Some new)
        end
    | _ => ret (Some new)
    end.

(** [for (i = 0; i < CFG->nb_out; i++) if (CFG->successor[i]->instruction
    ->address == a) ...]: is [a] the address of one of the first [nb_out]
    successors. *)
Fixpoint successor_has (s : list (option nat)) (idx : list nat) (a : Z) : M bool :=
  match idx with
  | [] => ret false
  | i :: idx' =>
      let! p := cell_read s (Z.of_nat i) in
      match p with
      | None => crash
      | Some h =>
          let! x := node_address h in
          if x =? a then ret true else successor_has s idx' a
      end
  end.

(** [stack[depth] = CFG; depth++;]. *)
Definition push_caller (CFG : nat) : M unit :=
  let! st := get in
  let! _ := stack_write (depth st) (Some CFG) in
  let! st := get in
  put (set_depth st (wrap16 (depth st + 1))).

(** [cfg_insert (ht, CFG, ins, g, str)]. *)
Definition cfg_insert (CFG : nat) (ins : instr) : M (option nat) :=
  let! c := get_node CFG in
  let! found := hashtable_lookup ins in
  match found with
  | None =>
      let! new := cfg_new ins in
      let! _ :=
        (if instr_type_eqb (type (instruction c)) CALL then
           let! st := get in
           let! _ := put (set_nb_name st (wrap16 (nb_name st + 1))) in
           let! st := get in
           let! f := cell_write (function_entry st) (nb_name st) (Some new) in
           let! _ := put (set_function_entry st f) in
           push_caller CFG
         else ret tt) in
      aux_cfg_insert CFG new
  | Some new =>
      let! _ := (if instr_type_eqb (type (instruction c)) CALL
                 then push_caller CFG else ret tt) in
      let! c := get_node CFG in
      let! a := node_address new in
      let! hit := successor_has (successor c) (seq 0 (Z.to_nat (nb_out c))) a in
      if hit then ret (Some new) else aux_cfg_insert CFG new
  end.

(** The globals at program start, with the table [ht]. *)
Definition init_state (t : hashtable) : state :=
  {| nodes := []; table := t; depth := 0; nb_name := 0;
     stack := repeat None 256; function_entry := repeat None 256 |}.

(** Feeding a sequence of instructions to the CFG, as the tracer's main
    loop does: [cfg = cfg_insert (ht, cfg, instr)]. *)
Fixpoint feed (cur : nat) (l : list instr) : M (option nat) :=
  match l with
  | [] => ret (Some cur)
  | i :: l' =>
      let! r := cfg_insert cur i in
      match r with
      | None => ret None
      | Some n => feed n l'
      end
  end.

(** *** Classification as written in the specification *)

Module ClassifySpec.

Definition in_range (lo hi x : Z) : bool := (lo <=? x) && (x <=? hi).

Definition mem (x : Z) (l : list Z) : bool := existsb (Z.eqb x) l.

Definition contains (text pattern : string) : bool :=
  match String.index 0 pattern text with Some _ => true | None => false end.

(** One row per kind, in the order of the table. *)
Definition rules : list (instr_type * (Z -> Z -> Z -> string -> bool)) :=
  [ (BRANCH, fun o0 o1 _ _ =>
       in_range 0x70 0x7F o0 || ((o0 =? 0x0F) && in_range 0x80 0x8F o1));
    (CALL, fun o0 o1 sz mn =>
       mem o0 [0xE8; 0x9A] || ((o0 =? 0xFF) && mem sz [2; 3])
       || ((o0 =? 0x41) && (o1 =? 0xFF) && contains mn "call"));
    (JUMP, fun o0 o1 sz mn =>
       in_range 0xE9 0xEB o0 || ((o0 =? 0xFF) && mem sz [4; 5])
       || in_range 0xE0 0xE3 o0
       || ((o0 =? 0x41) && (o1 =? 0xFF) && contains mn "jmp"));
    (RET, fun o0 o1 sz _ =>
       (mem o0 [0xC3; 0xCB] && (sz =? 1)) || (mem o0 [0xC2; 0xCA] && (sz =? 3))
       || ((o0 =? 0xF3) && (o1 =? 0xC3) && (sz =? 2))) ].

(** First match wins, else [BASIC]. *)
Definition classify (o0 o1 sz : Z) (mn : string) : instr_type :=
  match find (fun r => snd r o0 o1 sz mn) rules with
  | Some (ty, _) => ty
  | None => BASIC
  end.

End ClassifySpec.

(** *** Scenario 5 of the specification: BASIC(A), CALL(B), BASIC(C),
    RET(D), BASIC(E) with E right after B. *)
Module Scenario.

Definition from_opt (o : option instr) : instr :=
  match o with
  | Some i => i
  | None => {| address := 0; type := BASIC; size := 0; opcodes := [] |}
  end.

Definition iA := from_opt (instr_new 0x1000 1 [Byte.x90] "nop").
Definition iB := from_opt (instr_new 0x1001 5
                   [Byte.xe8; Byte.xfa; Byte.x0f; Byte.x00; Byte.x00] "call").
Definition iC := from_opt (instr_new 0x2000 1 [Byte.x90] "nop").
Definition iD := from_opt (instr_new 0x2001 1 [Byte.xc3] "ret").
Definition iE := from_opt (instr_new 0x1006 1 [Byte.x90] "nop").

Definition st0 : state :=
  init_state {| ht_size := 4; collisions := 0; entries := 0;
                buckets := repeat None 4 |}.

Definition run (l : list instr) : option (option nat * state) :=
  (let! a := cfg_new iA in feed a l) st0.

Definition state_of {A} (o : option (A * state)) : state :=
  match o with Some (_, s) => s | None => st0 end.

Definition node_of (st : state) (h : nat) : cfg_node :=
  match nodes st !! h with
  | Some c => c
  | None => {| instruction := iA; nb_in := 0; nb_out := 0; name := 0;
               successor := [] |}
  end.

(** Scenario 6: BRANCH(X) to Y, then from X to Z, then from X to W. *)
Definition iX := from_opt (instr_new 0x3000 2 [Byte.x74; Byte.x05] "je").
Definition iY := from_opt (instr_new 0x3002 1 [Byte.x90] "nop").
Definition iZ := from_opt (instr_new 0x3007 1 [Byte.x90] "nop").
Definition iW := from_opt (instr_new 0x3010 1 [Byte.x90] "nop").

(** The store after X and its edge to Y; X is node 0. *)
Definition branch_st : state :=
  Eval vm_compute in
    state_of ((let! x := cfg_new iX in cfg_insert x iY) st0).

Definition branch_st' : state :=
  Eval vm_compute in state_of (cfg_insert 0 iZ branch_st).

(** Scenario 5 up to the CALL target C (node 2, from B = node 1). *)
Definition call_st : state := Eval vm_compute in state_of (run [iB; iC]).

(** Scenario 5 up to RET(D) (node 3), the caller B on [stack[0]]. *)
Definition ret_st : state := Eval vm_compute in state_of (run [iB; iC; iD]).

(** From D to E, the instruction right after B. *)
Definition ret_ok_st : state :=
  Eval vm_compute in state_of (cfg_insert 3 iE ret_st).

(** From D back to C, not right after B. *)
Definition ret_mis_st : state :=
  Eval vm_compute in state_of (cfg_insert 3 iC ret_st).



(** Scenario 5 up to B: A (node 0) with its edge to B (node 1). *)
Definition ab_st : state := Eval vm_compute in state_of (run [iB]).

End Scenario.

End Trace.

(** ** The instruction lists of trace.c ([struct _trace_t]) *)

Module TraceList.
Import Trace.

(** A list node: its [instruction] and its [next] pointer. The nodes live
    in a heap; a pointer is an index in it, NULL is [None]. *)
Record tnode := mk_tnode {
  tinstr : instr;
  next : option nat
}.

Abbreviation heap := (list tnode).

(** [trace_new (ins)]: a fresh node with [next = NULL]. *)
Definition trace_new (ins : instr) (hp : heap) : nat * heap :=
  (length hp, hp ++ [mk_tnode ins None]).

(** [trace_insert (t, ins)]: the new node goes right after [t]. A [t]
    that is not a node of the heap is dereferenced ([None]: crash). *)
Definition trace_insert (t : option nat) (ins : instr) (hp : heap)
  : option (option nat * heap) :=
  match t with
  | None => Some (None, hp)
  | Some p =>
      let '(nw, hp1) := trace_new ins hp in
      match hp !! p with
      | None => None
      | Some tp =>
          let hp2 := match next tp with
                     | Some _ => <[nw := mk_tnode ins (next tp)]> hp1
                     | None => hp1
                     end in
          Some (Some nw, <[p := mk_tnode (tinstr tp) (Some nw)]> hp2)
      end
  end.

(** The [while] loop of [trace_compare], with at most [fuel] iterations
    ([None]: a NULL or dangling dereference, or more iterations than
    [fuel]). The result is the returned pointer. *)
Fixpoint compare_loop (fuel : nat) (tmp1 tmp2 : nat) (hp : heap)
  : option (option nat) :=
  match fuel with
  | O => None
  | S f =>
      match hp !! tmp1, hp !! tmp2 with
      | Some n1, Some n2 =>
          if address (tinstr n1) =? address (tinstr n2) then
            match next n1 with
            | None => Some (next n2)
            | Some t1 =>
                match next n2 with
                | None => Some None
                | Some t2 => compare_loop f t1 t2 hp
                end
            end
          else Some (Some tmp2)
      | _, _ => None
      end
  end.

(** [trace_compare (t1, t2)]: [tmp1->instruction] is read first, so a NULL
    [t1] or [t2] crashes. *)
Definition trace_compare (fuel : nat) (t1 t2 : option nat) (hp : heap)
  : option (option nat) :=
  match t1, t2 with
  | Some p1, Some p2 => compare_loop fuel p1 p2 hp
  | _, _ => None
  end.

(** Lists built with the functions above: A then B ([ab]); A then B, and
    a second list A, C ([two]). *)
Module Example.
Import Scenario.

Definition hp_of (o : option (option nat * heap)) : heap :=
  match o with Some (_, h) => h | None => [] end.

Definition ab : heap :=
  Eval vm_compute in hp_of (trace_insert (Some 0%nat) iB (snd (trace_new iA []))).

Definition two : heap :=
  Eval vm_compute in
    hp_of (trace_insert (Some 2%nat) iC (snd (trace_new iA ab))).

End Example.

End TraceList.

(** ** Auxiliary definitions of the proofs *)

(** The fall-through xor chain of the switch of [fasthash64], as a
    recursion on the bytes. *)
Fixpoint xor_chain (i : nat) (bs : list Byte.byte) : Z :=
  match bs with
  | [] => 0
  | b :: bs => Z.lxor (xor_chain (S i) bs) (Z.shiftl (u8 b) (8 * Z.of_nat i))
  end.

(** Number of non-empty buckets of a traces.c table. *)
Fixpoint count_filled (l : list (option (list Traces.instr))) : Z :=
  match l with
  | [] => 0
  | Some _ :: l => 1 + count_filled l
  | None :: l => count_filled l
  end.

(** Well-formed traces.c table: [size] buckets, [size > 0]. *)
Definition ht_wf (ht : Traces.hashtable) : Prop :=
  0 < Traces.ht_size ht /\ length (Traces.buckets ht) = Z.to_nat (Traces.ht_size ht).

(** The node allocated by [cfg_new ins]. *)
Definition fresh_node (ins : Trace.instr) : Trace.cfg_node :=
  {| Trace.instruction := ins; Trace.nb_in := 0; Trace.nb_out := 0; Trace.name := 0;
     Trace.successor := repeat None (Trace.initial_slots (Trace.type ins)) |}.

(** Number of instruction records held by the buckets of a traces.c
    table. *)
Fixpoint stored (l : list (option (list Traces.instr))) : Z :=
  match l with
  | [] => 0
  | Some b :: l => Z.of_nat (length b) + stored l
  | None :: l => stored l
  end.

(** Does node [h] of the store hold an instruction at address [a]. *)
Definition addr_is (ns : list Trace.cfg_node) (a : Z) (h : nat) : bool :=
  match ns !! h with
  | Some m => Trace.address (Trace.instruction m) =? a
  | None => false
  end.

(** The trace.c table is well formed in [st]: [size > 0] buckets, and every
    node pointer it holds points into the store. *)
Definition table_ok (st : Trace.state) : bool :=
  let t := Trace.table st in
  (0 <? Trace.ht_size t) && (length (Trace.buckets t) =? Z.to_nat (Trace.ht_size t))%nat
  && forallb (fun ob => match ob with
                        | None => true
                        | Some b => forallb (fun h => h <? length (Trace.nodes st))%nat b
                        end) (Trace.buckets t).


(** [ps] is the sequence of nodes of the list starting at pointer [p],
    ending with a NULL [next]. *)
Inductive chain (hp : TraceList.heap) : option nat -> list nat -> Prop :=
| chain_nil : chain hp None []
| chain_cons (p : nat) (n : TraceList.tnode) (ps : list nat) :
    hp !! p = Some n -> chain hp (TraceList.next n) ps -> chain hp (Some p) (p :: ps).

(** [chain] as a test: following the [next] pointers from [p] visits
    exactly the nodes [ps] and then reaches NULL. *)
Fixpoint chainb (hp : TraceList.heap) (p : option nat) (ps : list nat) : bool :=
  match p, ps with
  | None, [] => true
  | Some q, q' :: ps =>
      Nat.eqb q q' &&
      match hp !! q with
      | Some n => chainb hp (TraceList.next n) ps
      | None => false
      end
  | _, _ => false
  end.

(** The instructions held by the nodes [ps]. *)
Fixpoint instrs (hp : TraceList.heap) (ps : list nat) : list Trace.instr :=
  match ps with
  | [] => []
  | p :: ps =>
      match hp !! p with
      | Some n => TraceList.tinstr n :: instrs hp ps
      | None => instrs hp ps
      end
  end.

(** Length of the longest common prefix of two address sequences. *)
Fixpoint common (a b : list Z) : nat :=
  match a, b with
  | x :: a, y :: b => if x =? y then S (common a b) else O
  | _, _ => O
  end.





(* ================================================================= *)
(** * Proofs *)
(* ================================================================= *)

(** ** fasthash64 *)

Lemma u8_range (b : Byte.byte) : 0 <= u8 b < 2 ^ 8.
Proof.
  unfold u8. pose proof (Byte.to_N_bounded b) as Hb.
  change (2 ^ 8) with (Z.of_N 256). lia.
Qed.

(** Adding a value below [2^s] to a multiple of [2^s] sets disjoint bits. *)
Lemma land_mul_pow2_low (q y s : Z) :
  0 <= s -> 0 <= y < 2 ^ s -> Z.land (q * 2 ^ s) y = 0.
Proof.
  intros Hs Hy. apply Z.bits_inj'. intros n Hn.
  rewrite Z.land_spec, Z.bits_0, <- Z.shiftl_mul_pow2 by lia.
  destruct (Z.lt_ge_cases n s) as [Hlt | Hge].
  - rewrite Z.shiftl_spec_low by lia. reflexivity.
  - destruct (Z.eq_dec y 0) as [-> | Hy0].
    + rewrite Z.bits_0. apply andb_false_r.
    + rewrite (Z.bits_above_log2 y n); [apply andb_false_r | lia |].
      assert (Z.log2 y < s) by (apply Z.log2_lt_pow2; lia). lia.
Qed.

Lemma lxor_mul_pow2 (x y k : Z) :
  0 <= k -> Z.lxor (x * 2 ^ k) (y * 2 ^ k) = Z.lxor x y * 2 ^ k.
Proof.
  intros Hk. rewrite <- !Z.shiftl_mul_pow2 by lia. symmetry. apply Z.shiftl_lxor.
Qed.

Lemma lxor_mul_pow2_low (q y s : Z) :
  0 <= s -> 0 <= y < 2 ^ s -> Z.lxor (q * 2 ^ s) y = q * 2 ^ s + y.
Proof.
  intros Hs Hy. rewrite Z.add_nocarry_lxor; [reflexivity |].
  apply land_mul_pow2_low; assumption.
Qed.

Lemma lor_mul_pow2_low (q y s : Z) :
  0 <= s -> 0 <= y < 2 ^ s -> Z.lor y (q * 2 ^ s) = q * 2 ^ s + y.
Proof.
  intros Hs Hy. rewrite Z.lor_comm, <- Z.lxor_lor.
  - apply lxor_mul_pow2_low; assumption.
  - apply land_mul_pow2_low; assumption.
Qed.

Lemma le_value_nonneg (bs : list Byte.byte) : 0 <= FasthashSpec.le_value bs.
Proof.
  induction bs as [| b bs IH]; simpl; [lia |].
  pose proof (u8_range b). lia.
Qed.

Lemma xor_chain_value (bs : list Byte.byte) (i : nat) :
  xor_chain i bs = FasthashSpec.le_value bs * 2 ^ (8 * Z.of_nat i).
Proof.
  revert i. induction bs as [| b bs IH]; intros i; simpl; [reflexivity |].
  rewrite IH, Z.shiftl_mul_pow2 by lia.
  pose proof (u8_range b) as Hb.
  replace (8 * Z.of_nat (S i)) with (8 + 8 * Z.of_nat i) by lia.
  rewrite Z.pow_add_r, Z.mul_assoc, lxor_mul_pow2 by lia.
  rewrite lxor_mul_pow2_low by lia. ring.
Qed.

Lemma accumulate_value (bs : list Byte.byte) (i : nat) (v : Z) :
  0 <= v < 2 ^ (8 * Z.of_nat i) ->
  FasthashSpec.accumulate i bs v = v + FasthashSpec.le_value bs * 2 ^ (8 * Z.of_nat i).
Proof.
  revert i v. induction bs as [| b bs IH]; intros i v Hv; simpl; [ring |].
  pose proof (u8_range b) as Hb.
  rewrite Z.shiftl_mul_pow2 by lia.
  rewrite lor_mul_pow2_low by lia.
  pose proof (Z.pow_pos_nonneg 2 (8 * Z.of_nat i)) as Hp.
  assert (Hs : 2 ^ (8 * Z.of_nat (S i)) = 256 * 2 ^ (8 * Z.of_nat i))
    by (change 256 with (2 ^ 8); rewrite <- Z.pow_add_r by lia; f_equal; lia).
  change (2 ^ 8) with 256 in *.
  rewrite IH, Hs; [ring | nia].
Qed.

Lemma mix_spec_eq (h : Z) : mix h = FasthashSpec.mix_spec h.
Proof. reflexivity. Qed.

Lemma fasthash64_tail_short (bs : list Byte.byte) (h : Z) :
  (length bs < 8)%nat ->
  fasthash64_tail bs 0 (Z.of_nat (length bs)) h =
  match bs with
  | [] => h
  | _ => wrap64 (Z.lxor h (mix (xor_chain 0 bs)) * fasthash_m)
  end.
Proof.
  intros Hlen.
  do 8 (destruct bs as [| ? bs]; [reflexivity |]).
  simpl in Hlen. lia.
Qed.

Lemma fasthash64_loop_cons (x : Byte.byte) (l : list Byte.byte) (p c : nat) (r h : Z) :
  fasthash64_loop (x :: l) (S p) c r h = fasthash64_loop l p c r h.
Proof.
  revert p h. induction c as [| c IH]; intros p h; [reflexivity |].
  cbn [fasthash64_loop]. replace (S p + 8)%nat with (S (p + 8)) by lia.
  rewrite IH. reflexivity.
Qed.

Lemma blocks_short (bs : list Byte.byte) :
  (length bs < 8)%nat -> FasthashSpec.blocks bs = ([], bs).
Proof.
  intros Hlen.
  do 8 (destruct bs as [| ? bs]; [reflexivity |]).
  simpl in Hlen. lia.
Qed.

Lemma load64_le_value (b0 b1 b2 b3 b4 b5 b6 b7 : Byte.byte) (rest : list Byte.byte) :
  load64 (b0 :: b1 :: b2 :: b3 :: b4 :: b5 :: b6 :: b7 :: rest) 0 =
  FasthashSpec.le_value [b0; b1; b2; b3; b4; b5; b6; b7].
Proof. unfold load64, byte_at. simpl. ring. Qed.

Lemma fold_step_eq (h v : Z) :
  FasthashSpec.fold_step h v = wrap64 (Z.lxor h (mix v) * fasthash_m).
Proof. reflexivity. Qed.

Lemma fasthash64_loop_spec (c r : nat) (bs : list Byte.byte) (h : Z) :
  length bs = (8 * c + r)%nat -> (r < 8)%nat ->
  fasthash64_loop bs 0 c (Z.of_nat r) h =
  let '(bl, tl) := FasthashSpec.blocks bs in
  let h1 := fold_left (fun h blk => FasthashSpec.fold_step h (FasthashSpec.le_value blk)) bl h in
  match tl with [] => h1 | _ => FasthashSpec.fold_step h1 (FasthashSpec.accumulate 0 tl 0) end.
Proof.
  revert bs h. induction c as [| c IH]; intros bs h Hlen Hr.
  - rewrite blocks_short by lia. simpl.
    replace r with (length bs) by lia. rewrite fasthash64_tail_short by lia.
    destruct bs as [| b bs]; [reflexivity |].
    rewrite xor_chain_value, accumulate_value by (simpl; lia).
    unfold FasthashSpec.fold_step. simpl. rewrite Z.mul_1_r. reflexivity.
  - do 8 (destruct bs as [| ? bs]; [simpl in Hlen; lia |]).
    simpl in Hlen.
    cbn [fasthash64_loop]. change (0 + 8)%nat with 8%nat.
    rewrite !fasthash64_loop_cons, IH by lia.
    rewrite load64_le_value, <- fold_step_eq.
    cbn [FasthashSpec.blocks]. destruct (FasthashSpec.blocks bs) as [bl tl].
    reflexivity.
Qed.

Lemma fasthash64_refines (bs : list Byte.byte) (seed : Z) :
  fasthash64 bs (Z.of_nat (length bs)) seed = FasthashSpec.fasthash64_spec bs seed.
Proof.
  unfold fasthash64, FasthashSpec.fasthash64_spec.
  set (n := length bs).
  assert (Hdm : n = (8 * (n / 8) + n mod 8)%nat) by (apply Nat.div_mod; lia).
  assert (Hr : (n mod 8 < 8)%nat) by (apply Nat.mod_upper_bound; lia).
  replace (Z.to_nat (Z.of_nat n / 8)) with (n / 8)%nat
    by (change 8 with (Z.of_nat 8); rewrite <- (Nat2Z.inj_div n 8); symmetry; apply Nat2Z.id).
  replace (Z.land (Z.of_nat n) 7) with (Z.of_nat (n mod 8)).
  2:{ change 7 with (Z.ones 3). rewrite Z.land_ones by lia.
      rewrite Nat2Z.inj_mod. reflexivity. }
  rewrite fasthash64_loop_spec with (c := (n / 8)%nat) (r := (n mod 8)%nat) by (subst n; lia).
  destruct (FasthashSpec.blocks bs) as [bl tl]. reflexivity.
Qed.

(** The model reproduces the counters checked by tests/test_traces.c. *)
Example traces_test_hashtable :
  (Traces.entries TracesTests.run, Traces.collisions TracesTests.run,
   Traces.hashtable_filled_buckets TracesTests.run) = (10, 6, 4).
Proof. vm_compute. reflexivity. Qed.

(** ** Instruction store (traces.c) *)

Section TracesStore.
Import Traces.

Lemma fold_filled_seq_cons (x : option (list instr)) (l : list (option (list instr)))
  (st n : nat) (a : Z) :
  fold_left (fun count index =>
               count + match nth index (x :: l) None with Some _ => 1 | None => 0 end)
            (seq (S st) n) a =
  fold_left (fun count index =>
               count + match nth index l None with Some _ => 1 | None => 0 end)
            (seq st n) a.
Proof.
  revert st a. induction n as [| n IH]; intros st a; simpl; [reflexivity |].
  apply IH.
Qed.

Lemma fold_filled_seq (l : list (option (list instr))) (a : Z) :
  fold_left (fun count index =>
               count + match nth index l None with Some _ => 1 | None => 0 end)
            (seq 0 (length l)) a = a + count_filled l.
Proof.
  revert a. induction l as [| x l IH]; intros a; [simpl; lia |].
  cbn [seq fold_left length]. rewrite fold_filled_seq_cons, IH.
  cbn [nth count_filled]. destruct x; lia.
Qed.

Lemma count_filled_insert (l : list (option (list instr))) (idx : nat) (v : list instr) :
  (idx < length l)%nat ->
  count_filled (<[idx := Some v]> l) =
  count_filled l + match nth idx l None with None => 1 | Some _ => 0 end.
Proof.
  revert idx. induction l as [| x l IH]; intros idx Hidx; simpl in *; [lia |].
  destruct idx as [| idx]; simpl.
  - destruct x; lia.
  - rewrite IH by lia. destruct x; lia.
Qed.

Lemma bucket_index_lt (ht : hashtable) (i : instr) :
  ht_wf ht -> (bucket_index ht i < length (buckets ht))%nat.
Proof.
  intros [Hpos Hlen]. unfold bucket_index. rewrite Hlen.
  pose proof (Z.mod_pos_bound (hash_instr i) (ht_size ht) Hpos). lia.
Qed.

Lemma filled_buckets_count (ht : hashtable) :
  ht_wf ht -> hashtable_filled_buckets ht = count_filled (buckets ht).
Proof.
  intros [Hpos Hlen]. unfold hashtable_filled_buckets, bucket.
  rewrite <- Hlen, fold_filled_seq. lia.
Qed.

Lemma insert_wf (ht : hashtable) (i : instr) :
  ht_wf ht -> ht_wf (snd (hashtable_insert ht i)).
Proof.
  intros Hwf. unfold hashtable_insert.
  destruct (bucket ht (bucket_index ht i)) as [b |].
  - destruct (existsb _ b); [exact Hwf |].
    destruct Hwf as [Hp Hl]. split; simpl; [lia | rewrite length_insert; exact Hl].
  - destruct Hwf as [Hp Hl]. split; simpl; [lia | rewrite length_insert; exact Hl].
Qed.

Lemma nth_insert_eq (idx : nat) (v : option (list instr)) (l : list (option (list instr))) :
  (idx < length l)%nat ->
  nth idx (<[idx := v]> l) None = v.
Proof.
  intros H. apply nth_lookup_Some. apply list_lookup_insert_eq. exact H.
Qed.

End TracesStore.

Section TracesCounters.
Import Traces.

Lemma insert_step (ht : hashtable) (i : instr) :
  ht_wf ht ->
  let index := bucket_index ht i in
  let '(res, ht') := hashtable_insert ht i in
  let was_empty := match bucket ht index with None => true | Some _ => false end in
  let now_filled := match bucket ht' index with None => false | Some _ => true end in
  ht_size ht' = ht_size ht /\
  entries ht' = entries ht + (if res then 1 else 0) /\
  count_filled (buckets ht') =
    count_filled (buckets ht) + (if was_empty && now_filled then 1 else 0) /\
  collisions ht' = collisions ht + (if negb was_empty && res then 1 else 0).
Proof.
  intros Hwf. pose proof (bucket_index_lt ht i Hwf) as Hlt.
  cbv zeta. unfold hashtable_insert.
  destruct (bucket ht (bucket_index ht i)) as [b |] eqn:Eb.
  - destruct (existsb _ b).
    + cbn [fst snd]. rewrite Eb. cbn. lia.
    + unfold bucket in *. cbn [buckets ht_size entries collisions fst snd].
      rewrite nth_insert_eq by exact Hlt.
      rewrite count_filled_insert, Eb by exact Hlt. cbn. lia.
  - unfold bucket in *. cbn [buckets ht_size entries collisions fst snd].
    rewrite nth_insert_eq by exact Hlt.
    rewrite count_filled_insert, Eb by exact Hlt. cbn. lia.
Qed.

Lemma insert_all_counters (l : list instr) (ht : hashtable) :
  ht_wf ht ->
  let '(htf, obs) := insert_all ht l in
  ht_wf htf /\
  entries htf = entries ht + count_if (fun '(_, _, res) => res) obs /\
  count_filled (buckets htf) =
    count_filled (buckets ht) + count_if (fun '(e, f, _) => e && f) obs /\
  collisions htf = collisions ht + count_if (fun '(e, _, res) => negb e && res) obs.
Proof.
  revert ht. induction l as [| i l IH]; intros ht Hwf; simpl.
  - repeat split; try lia; apply Hwf.
  - pose proof (insert_step ht i Hwf) as Hs.
    pose proof (insert_wf ht i Hwf) as Hwf'.
    destruct (hashtable_insert ht i) as [res ht'] eqn:Ei. simpl in Hwf'.
    specialize (IH ht' Hwf').
    destruct (insert_all ht' l) as [htf obs] eqn:Ea.
    destruct Hs as (_ & He & Hf & Hc). destruct IH as (Hwff & He' & Hf' & Hc').
    refine (conj Hwff (conj _ (conj _ _))); cbn [count_if].
    + rewrite He', He. destruct res; lia.
    + rewrite Hf', Hf.
      destruct (bucket ht (bucket_index ht i)), (bucket ht' (bucket_index ht i)); simpl; lia.
    + rewrite Hc', Hc.
      destruct (bucket ht (bucket_index ht i)), res; simpl; lia.
Qed.

End TracesCounters.

(** C6: the counters of a table created by [hashtable_new] count the
    successful insertions ([entries]), the buckets that went from empty to
    non-empty ([filled_buckets]) and the successful insertions into an
    already non-empty bucket ([collisions]); the first insertion into a
    bucket leaves [collisions] unchanged, every later successful insertion
    into it increments it. *)
Theorem hashtable_counters_correct (S : N) (ht0 : Traces.hashtable) (l : list Traces.instr) :
  Traces.hashtable_new S = Some ht0 ->
  (let '(ht, obs) := Traces.insert_all ht0 l in
   Traces.hashtable_entries ht = Traces.count_if (fun '(_, _, res) => res) obs /\
   Traces.hashtable_filled_buckets ht = Traces.count_if (fun '(e, f, _) => e && f) obs /\
   Traces.hashtable_collisions ht =
     Traces.count_if (fun '(e, _, res) => negb e && res) obs) /\
  (forall (ht : Traces.hashtable) (i : Traces.instr),
     let '(res, ht') := Traces.hashtable_insert ht i in
     (Traces.bucket ht (Traces.bucket_index ht i) = None ->
        Traces.hashtable_collisions ht' = Traces.hashtable_collisions ht) /\
     (Traces.bucket ht (Traces.bucket_index ht i) <> None -> res = true ->
        Traces.hashtable_collisions ht' = Traces.hashtable_collisions ht + 1)).
Proof.
  intros Hnew. split.
  - unfold Traces.hashtable_new in Hnew.
    destruct (S =? 0)%N eqn:ES; [discriminate |]. injection Hnew as <-.
    apply N.eqb_neq in ES.
    match goal with |- context [Traces.insert_all ?h l] =>
      assert (Hwf : ht_wf h) by (split; simpl; [lia | rewrite repeat_length; lia]);
      pose proof (insert_all_counters l h Hwf) as Hc
    end.
    destruct (Traces.insert_all _ l) as [ht obs].
    destruct Hc as (Hwf' & He & Hf & Hcol).
    unfold Traces.hashtable_entries, Traces.hashtable_collisions.
    rewrite filled_buckets_count by exact Hwf'.
    rewrite He, Hf, Hcol. simpl.
    assert (H0 : forall n, count_filled (repeat None n) = 0)
      by (induction n; simpl; auto).
    rewrite H0. lia.
  - intros ht i. unfold Traces.hashtable_insert, Traces.hashtable_collisions.
    destruct (Traces.bucket ht (Traces.bucket_index ht i)) as [b |].
    + destruct (existsb _ b); simpl; split; intros; congruence || lia.
    + simpl. split; intros; congruence || lia.
Qed.

(** C1 (failing input): a table of one bucket holding the instruction
    [(0x1000, 2, 00 11)]; inserting [(0x1000, 2, 00 22)], whose identity is
    not in the table, returns false because [strncmp] stops comparing the
    opcodes at their common leading NUL byte. *)
Theorem hashtable_insert_nul_opcodes :
  let i1 := Traces.mk_instr 0x1000 2 [Byte.x00; Byte.x11] in
  let i2 := Traces.mk_instr 0x1000 2 [Byte.x00; Byte.x22] in
  match Traces.hashtable_new 1 with
  | Some ht =>
      let '(r1, ht1) := Traces.hashtable_insert ht i1 in
      r1 = true /\ Traces.buckets ht1 = [Some [i1]] /\
      (forall b, In (Some b) (Traces.buckets ht1) ->
         forall k, In k b -> ~ Traces.same_identity k i2) /\
      Traces.hashtable_insert ht1 i2 = (false, ht1)
  | None => False
  end.
Proof.
  vm_compute. split; [reflexivity |]. split; [reflexivity |]. split; [| reflexivity].
  intros b Hb k Hk. destruct Hb as [Hb | []]. injection Hb as <-.
  simpl in Hk. destruct Hk as [<- | []].
  intros (_ & _ & Hop). discriminate Hop.
Qed.

Section TracesTrace.
Import Traces.

Lemma compare_loop_spec (n1 n2 : list nat) (c : Z) :
  n1 <> [] -> n2 <> [] ->
  (n1 = n2 -> compare_loop n1 n2 c = 0) /\
  (n1 <> n2 -> exists j : nat,
     compare_loop n1 n2 c = c + Z.of_nat j /\
     nth_error n1 j <> nth_error n2 j /\
     forall j', (j' < j)%nat -> nth_error n1 j' = nth_error n2 j').
Proof.
  revert n2 c. induction n1 as [| x r1 IH]; intros n2 c H1 H2; [congruence |].
  destruct n2 as [| y r2]; [congruence |]. simpl.
  destruct (Nat.eqb_spec x y) as [<- | Hxy].
  - destruct r1 as [| a1 r1']; destruct r2 as [| a2 r2'].
    + split; [reflexivity | congruence].
    + split; [discriminate |]. intros _. exists 1%nat.
      split; [lia |]. split; [simpl; discriminate |].
      intros j' Hj'. assert (j' = 0%nat) as -> by lia. reflexivity.
    + split; [discriminate |]. intros _. exists 1%nat.
      split; [lia |]. split; [simpl; discriminate |].
      intros j' Hj'. assert (j' = 0%nat) as -> by lia. reflexivity.
    + destruct (IH (a2 :: r2') (c + 1)) as [Heq Hne]; [discriminate | discriminate |].
      split.
      * intros Hn. injection Hn as Hn. apply Heq. congruence.
      * intros Hn. destruct Hne as (j & Hj & Hd & Hb); [congruence |].
        exists (S j). split; [lia |]. split; [exact Hd |].
        intros [| j'] Hj'; [reflexivity |]. apply Hb. lia.
  - split; [congruence |]. intros _. exists 0%nat.
    split; [lia |]. split; [simpl; congruence |]. intros j' Hj'. lia.
Qed.

Lemma trace_get_loop_in (l : list nat) (s : nat) :
  (s < length l)%nat -> trace_get_loop l s = Ok (nth_error l s).
Proof.
  revert s. induction l as [| x r IH]; intros s Hs; simpl in Hs; [lia |].
  destruct s as [| s]; [reflexivity |].
  simpl. destruct r as [| y r']; [simpl in Hs; lia |].
  rewrite IH by lia. reflexivity.
Qed.

Lemma trace_get_loop_out (l : list nat) (s : nat) :
  l <> [] -> (length l <= s)%nat -> trace_get_loop l s = Ok None.
Proof.
  revert s. induction l as [| x r IH]; intros s Hl Hs; [congruence |].
  simpl in Hs. destruct s as [| s]; [lia |].
  simpl. destruct r as [| y r']; [reflexivity |].
  apply IH; [discriminate | simpl in *; lia].
Qed.

Lemma trace_length_eq (l : list nat) : trace_length l = Z.of_nat (length l).
Proof. induction l as [| x l IH]; simpl; lia. Qed.

End TracesTrace.

(** C5 (amended): if either trace is empty (both included),
    [trace_compare] returns 1; for two non-empty traces it returns 0 exactly
    when the sequences of handles are equal, and otherwise a position
    [k >= 1] at which they differ, the handles agreeing at every earlier
    position. *)
Theorem trace_compare_correct (t1 t2 : Traces.trace) :
  ((t1 = [] \/ t2 = []) -> Traces.trace_compare t1 t2 = 1) /\
  (t1 <> [] -> t2 <> [] ->
   (Traces.trace_compare t1 t2 = 0 <-> t1 = t2) /\
   (t1 <> t2 ->
    let k := Traces.trace_compare t1 t2 in
    1 <= k /\
    nth_error t1 (Z.to_nat (k - 1)) <> nth_error t2 (Z.to_nat (k - 1)) /\
    forall j, 1 <= j < k -> nth_error t1 (Z.to_nat (j - 1)) = nth_error t2 (Z.to_nat (j - 1)))).
Proof.
  split.
  - intros [-> | ->]; [reflexivity |]. destruct t1; reflexivity.
  - intros H1 H2.
    assert (Hc : Traces.trace_compare t1 t2 = Traces.compare_loop t1 t2 1)
      by (destruct t1; [congruence |]; destruct t2; [congruence |]; reflexivity).
    rewrite Hc.
    destruct (compare_loop_spec t1 t2 1 H1 H2) as [Heq Hne].
    split.
    + split; [| exact Heq].
      intros H0. destruct (decide (t1 = t2)) as [E | E]; [exact E |].
      destruct (Hne E) as (j & Hj & _). lia.
    + intros E. destruct (Hne E) as (j & Hj & Hd & Hb). cbv zeta. rewrite Hj.
      split; [lia |].
      replace (Z.to_nat (1 + Z.of_nat j - 1)) with j by lia.
      split; [exact Hd |].
      intros j' Hj'. apply Hb. lia.
Qed.

(** C5 (counterexample): the empty trace compared with itself gives 1,
    not 0. *)
Lemma trace_compare_empty_self : Traces.trace_compare Traces.trace_new Traces.trace_new <> 0.
Proof. vm_compute. discriminate. Qed.

(** C8 (failing input): [trace_get] on the empty trace dereferences the
    NULL head for every index [>= 1], instead of returning NULL. *)
Theorem trace_get_empty_crashes :
  Traces.trace_get Traces.trace_new 1 = Traces.Crash /\
  Traces.trace_get Traces.trace_new 4 = Traces.Crash.
Proof. split; reflexivity. Qed.

(** C10: a successful [trace_append tr i] with a non-NULL [i] lengthens the
    trace by one, keeps every handle at positions [1 .. length tr], and puts
    [i] at position [length tr + 1]. *)
Theorem trace_append_frame (tr tr' : Traces.trace) (p : nat) :
  Traces.trace_append tr (Some p) = Traces.Ok tr' ->
  Traces.trace_length tr' = Traces.trace_length tr + 1 /\
  (forall k, 1 <= k <= Traces.trace_length tr ->
     Traces.trace_get tr' k = Traces.trace_get tr k) /\
  Traces.trace_get tr' (Traces.trace_length tr + 1) = Traces.Ok (Some p).
Proof.
  intros Happ. injection Happ as <-.
  rewrite !trace_length_eq, length_app. simpl.
  split; [lia |]. split.
  - intros k Hk. unfold Traces.trace_get.
    destruct (k <? 1) eqn:Ek; [reflexivity |].
    rewrite !trace_get_loop_in by (rewrite ?length_app; simpl; lia).
    rewrite nth_error_app1 by lia. reflexivity.
  - unfold Traces.trace_get.
    destruct (Z.of_nat (length tr) + 1 <? 1) eqn:Ek; [apply Z.ltb_lt in Ek; lia |].
    rewrite trace_get_loop_in by (rewrite length_app; simpl; lia).
    rewrite nth_error_app2 by lia.
    replace (Z.to_nat (Z.of_nat (length tr) + 1 - 1) - length tr)%nat with 0%nat by lia.
    reflexivity.
Qed.

(** C7: [fasthash64] over a buffer of [len] bytes computes the function of
    §4.B (64-bit wrap-around arithmetic, 8-byte little-endian blocks, the
    trailing bytes shifted by [8*i] and folded once, final [mix]); and
    [hash_instr] of an instruction built by [instr_new] is that function on
    its opcode bytes with the address as seed. *)
Theorem fasthash64_matches_spec :
  (forall (bs : list Byte.byte) (seed : Z),
     fasthash64 bs (Z.of_nat (length bs)) seed = FasthashSpec.fasthash64_spec bs seed) /\
  (forall (addr sz : Z) (ops : list Byte.byte) (i : Traces.instr),
     0 <= sz < 256 -> (Z.to_nat sz <= length ops)%nat ->
     Traces.instr_new addr sz ops = Some i ->
     Traces.hash_instr i = FasthashSpec.fasthash64_spec (firstn (Z.to_nat sz) ops) addr).
Proof.
  split; [exact fasthash64_refines |].
  intros addr sz ops i Hsz Hlen Hnew.
  unfold Traces.instr_new in Hnew.
  destruct (sz =? 0); [discriminate |]. injection Hnew as <-.
  unfold Traces.hash_instr. simpl.
  rewrite <- fasthash64_refines, length_firstn.
  f_equal. lia.
Qed.

(** *** Witnesses of the traces.c theorems *)

Lemma hashtable_counters_correct_witness :
  Traces.hashtable_new 4 = Some TracesTests.ht4 /\
  (let '(ht, obs) := Traces.insert_all TracesTests.ht4 TracesTests.ins in
   Traces.hashtable_entries ht = Traces.count_if (fun '(_, _, res) => res) obs /\
   Traces.hashtable_filled_buckets ht = Traces.count_if (fun '(e, f, _) => e && f) obs /\
   Traces.hashtable_collisions ht =
     Traces.count_if (fun '(e, _, res) => negb e && res) obs).
Proof.
  assert (H : Traces.hashtable_new 4 = Some TracesTests.ht4) by reflexivity.
  split; [exact H |].
  destruct (hashtable_counters_correct 4%N TracesTests.ht4 TracesTests.ins H) as [P _].
  exact P.
Defined.

Lemma trace_compare_correct_witness :
  [1%nat; 2%nat] <> [] /\ [1%nat; 3%nat] <> [] /\ [1%nat; 2%nat] <> [1%nat; 3%nat] /\
  (let k := Traces.trace_compare [1%nat; 2%nat] [1%nat; 3%nat] in
   1 <= k /\
   nth_error [1%nat; 2%nat] (Z.to_nat (k - 1)) <> nth_error [1%nat; 3%nat] (Z.to_nat (k - 1)) /\
   forall j, 1 <= j < k ->
     nth_error [1%nat; 2%nat] (Z.to_nat (j - 1)) = nth_error [1%nat; 3%nat] (Z.to_nat (j - 1))).
Proof.
  assert (H1 : [1%nat; 2%nat] <> []) by discriminate.
  assert (H2 : [1%nat; 3%nat] <> []) by discriminate.
  assert (H3 : [1%nat; 2%nat] <> [1%nat; 3%nat]) by discriminate.
  refine (conj H1 (conj H2 (conj H3 _))).
  exact (proj2 (proj2 (trace_compare_correct _ _) H1 H2) H3).
Defined.

Lemma trace_append_frame_witness :
  Traces.trace_append [4%nat; 5%nat] (Some 6%nat) = Traces.Ok [4%nat; 5%nat; 6%nat] /\
  Traces.trace_length [4%nat; 5%nat; 6%nat] = Traces.trace_length [4%nat; 5%nat] + 1 /\
  (forall k, 1 <= k <= Traces.trace_length [4%nat; 5%nat] ->
     Traces.trace_get [4%nat; 5%nat; 6%nat] k = Traces.trace_get [4%nat; 5%nat] k) /\
  Traces.trace_get [4%nat; 5%nat; 6%nat] (Traces.trace_length [4%nat; 5%nat] + 1) =
    Traces.Ok (Some 6%nat).
Proof.
  assert (H : Traces.trace_append [4%nat; 5%nat] (Some 6%nat) = Traces.Ok [4%nat; 5%nat; 6%nat])
    by reflexivity.
  exact (conj H (trace_append_frame _ _ _ H)).
Defined.

Lemma fasthash64_matches_spec_witness :
  0 <= 2 < 256 /\ (Z.to_nat 2 <= length [Byte.x00; Byte.x11])%nat /\
  Traces.instr_new 0x1000 2 [Byte.x00; Byte.x11] =
    Some (Traces.mk_instr 0x1000 2 [Byte.x00; Byte.x11]) /\
  Traces.hash_instr (Traces.mk_instr 0x1000 2 [Byte.x00; Byte.x11]) =
    FasthashSpec.fasthash64_spec (firstn (Z.to_nat 2) [Byte.x00; Byte.x11]) 0x1000.
Proof.
  assert (H1 : 0 <= 2 < 256) by lia.
  assert (H2 : (Z.to_nat 2 <= length [Byte.x00; Byte.x11])%nat) by (simpl; lia).
  assert (H3 : Traces.instr_new 0x1000 2 [Byte.x00; Byte.x11] =
                 Some (Traces.mk_instr 0x1000 2 [Byte.x00; Byte.x11])) by reflexivity.
  exact (conj H1 (conj H2 (conj H3 (proj2 fasthash64_matches_spec _ _ _ _ H1 H2 H3)))).
Defined.

(** ** The instruction classification (trace.c) *)

Lemma strstr_index (hay needle : string) :
  Trace.strstr hay needle = String.index 0 needle hay.
Proof.
  induction hay as [| c hay IH]; simpl.
  - destruct needle; reflexivity.
  - rewrite IH. reflexivity.
Qed.

Lemma found_contains (hay needle : string) :
  Trace.found (Trace.strstr hay needle) = Trace.ClassifySpec.contains hay needle.
Proof.
  unfold Trace.ClassifySpec.contains. rewrite strstr_index.
  destruct (String.index 0 needle hay); reflexivity.
Qed.

(** C4: the kind given by [instr_new] is the first row of the table of
    §4.A whose condition holds on [opcodes[0]], [opcodes[1]], [size] and the
    mnemonic, and [BASIC] when none does. *)
Theorem instr_new_classification (addr sz : Z) (ops : list Byte.byte) (mn : string)
  (i : Trace.instr) :
  Trace.instr_new addr sz ops mn = Some i ->
  Trace.type i = Trace.ClassifySpec.classify (byte_at ops 0) (byte_at ops 1) sz mn.
Proof.
  unfold Trace.instr_new. destruct (sz =? 0); [discriminate |].
  intros H. injection H as <-. cbn [Trace.type].
  rewrite !found_contains.
  unfold Trace.ClassifySpec.classify, Trace.ClassifySpec.rules,
    Trace.ClassifySpec.in_range, Trace.ClassifySpec.mem. cbn [find snd existsb].
  rewrite !orb_false_r, !andb_assoc.
  set (o0 := byte_at ops 0). set (o1 := byte_at ops 1).
  match goal with |- (if ?c then _ else _) = _ => destruct c; [reflexivity |] end.
  match goal with |- (if ?c then _ else _) = _ => destruct c; [reflexivity |] end.
  match goal with |- (if ?c then _ else _) = _ => destruct c; [reflexivity |] end.
  match goal with |- (if ?c then _ else _) = _ => destruct c; reflexivity end.
Qed.

Lemma instr_new_classification_witness :
  exists i, Trace.instr_new 0x401000 3 [Byte.x41; Byte.xff; Byte.xd0] "call r8" = Some i /\
  Trace.type i = Trace.ClassifySpec.classify 0x41 0xff 3 "call r8".
Proof.
  eexists. split; [reflexivity |].
  apply (instr_new_classification 0x401000 3 [Byte.x41; Byte.xff; Byte.xd0] "call r8").
  reflexivity.
Defined.

(** ** The CFG store (trace.c) *)

Section TraceMonad.
Import Trace.

Lemma bind_inv {A B} (m : M A) (k : A -> M B) st b st'' :
  bind m k st = Some (b, st'') ->
  exists a st', m st = Some (a, st') /\ k a st' = Some (b, st'').
Proof. unfold bind. destruct (m st) as [[a st'] |]; [eauto | discriminate]. Qed.

Lemma ret_inv {A} (a : A) st b st' : ret a st = Some (b, st') -> b = a /\ st' = st.
Proof. unfold ret. intros H. injection H as <- <-. auto. Qed.

Lemma get_inv st s st' : get st = Some (s, st') -> s = st /\ st' = st.
Proof. unfold get. intros H. injection H as <- <-. auto. Qed.

Lemma put_inv s st u st' : put s st = Some (u, st') -> st' = s.
Proof. unfold put. intros H. injection H as _ <-. auto. Qed.

Lemma get_node_inv h st n st' :
  get_node h st = Some (n, st') -> nodes st !! h = Some n /\ st' = st.
Proof.
  unfold get_node. destruct (nodes st !! h) eqn:E; [| discriminate].
  intros H. injection H as <- <-. auto.
Qed.

Lemma put_node_inv h n st u st' :
  put_node h n st = Some (u, st') ->
  (h < length (nodes st))%nat /\ st' = set_nodes st (<[h := n]> (nodes st)).
Proof.
  unfold put_node. destruct (decide _); [| discriminate].
  intros H. injection H as _ <-. auto.
Qed.

Lemma cell_read_inv a i st v st' :
  cell_read a i st = Some (v, st') ->
  0 <= i < Z.of_nat (length a) /\ v = nth (Z.to_nat i) a None /\ st' = st.
Proof.
  unfold cell_read. destruct (0 <=? i) eqn:E1, (i <? Z.of_nat (length a)) eqn:E2;
    cbn [andb]; try discriminate.
  intros H. apply ret_inv in H as [-> ->].
  apply Z.leb_le in E1. apply Z.ltb_lt in E2. repeat split; auto; lia.
Qed.

Lemma cell_write_inv a i v st a' st' :
  cell_write a i v st = Some (a', st') ->
  0 <= i < Z.of_nat (length a) /\ a' = <[Z.to_nat i := v]> a /\ st' = st.
Proof.
  unfold cell_write. destruct (0 <=? i) eqn:E1, (i <? Z.of_nat (length a)) eqn:E2;
    cbn [andb]; try discriminate.
  intros H. apply ret_inv in H as [-> ->].
  apply Z.leb_le in E1. apply Z.ltb_lt in E2. repeat split; auto; lia.
Qed.

End TraceMonad.

(** Decomposition of a successful run of [let! x := m in k]. *)
Ltac bind_step H a s Hm := apply bind_inv in H; destruct H as (a & s & Hm & H).

(** Closes [exists m', (if decide .. then Some _ else l !! h) = Some m' /\
    instruction m' = instruction m] after a series of stores. *)
Ltac lookup_frame :=
  repeat case_decide;
  repeat match goal with Hx : _ /\ _ |- _ => destruct Hx end; subst;
  eexists; (split; [first [reflexivity | eassumption] |
                    cbn; repeat split; intros; congruence]).

Section TraceStore.
Import Trace.

Lemma state_eta (st : state) :
  st = {| nodes := nodes st; table := table st; depth := depth st;
          nb_name := nb_name st; stack := stack st;
          function_entry := function_entry st |}.
Proof. destruct st; reflexivity. Qed.

Lemma node_address_inv h st x st' :
  node_address h st = Some (x, st') ->
  st' = st /\ exists m, nodes st !! h = Some m /\ x = address (instruction m).
Proof.
  unfold node_address. intros H. bind_step H n s1 Hm.
  apply get_node_inv in Hm as [Hn ->]. apply ret_inv in H as [-> ->]. eauto.
Qed.

Lemma find_address_inv b a st r st' :
  find_address b a st = Some (r, st') ->
  st' = st /\
  (forall h, r = Some h -> exists m, nodes st !! h = Some m /\ address (instruction m) = a).
Proof.
  revert st r st'. induction b as [| h b IH]; intros st r st' H; cbn [find_address] in H.
  - apply ret_inv in H as [-> ->]. split; [auto | discriminate].
  - bind_step H x s1 Hm. apply node_address_inv in Hm as [-> (m & Hn & ->)].
    destruct (address (instruction m) =? a) eqn:E.
    + apply ret_inv in H as [-> ->]. split; [auto |].
      intros h' Eh. injection Eh as <-. exists m. split; [exact Hn | lia].
    + exact (IH _ _ _ H).
Qed.

Lemma hashtable_lookup_inv i st r st' :
  hashtable_lookup i st = Some (r, st') ->
  st' = st /\
  (forall h, r = Some h ->
     exists m, nodes st !! h = Some m /\ address (instruction m) = address i).
Proof.
  unfold hashtable_lookup. intros H. bind_step H s0 s1 Hm.
  apply get_inv in Hm as [-> ->].
  destruct (nth _ (buckets (table st)) None) as [b |].
  - exact (find_address_inv _ _ _ _ _ H).
  - apply ret_inv in H as [-> ->]. split; [auto | discriminate].
Qed.

Lemma hashtable_insert_inv h st b st' :
  hashtable_insert h st = Some (b, st') -> st' = set_table st (table st').
Proof.
  unfold hashtable_insert. intros H. bind_step H n s1 Hm.
  apply get_node_inv in Hm as [_ ->]. bind_step H s0 s1 Hm.
  apply get_inv in Hm as [-> ->].
  destruct (nth _ (buckets (table st)) None) as [bk |].
  - bind_step H dup s1 Hm. apply find_address_inv in Hm as [-> _].
    destruct dup as [d |].
    + apply ret_inv in H as [_ ->]. apply state_eta.
    + bind_step H s0 s1 Hm. apply get_inv in Hm as [-> ->].
      bind_step H u s1 Hm. apply put_inv in Hm as ->.
      apply ret_inv in H as [_ ->]. reflexivity.
  - bind_step H u s1 Hm. apply put_inv in Hm as ->.
    apply ret_inv in H as [_ ->]. reflexivity.
Qed.

Lemma cfg_new_inv ins st h st' :
  cfg_new ins st = Some (h, st') ->
  h = length (nodes st) /\
  st' = set_table (set_nodes st (nodes st ++ [fresh_node ins])) (table st').
Proof.
  unfold cfg_new. intros H. bind_step H s0 s1 Hm. apply get_inv in Hm as [-> ->].
  bind_step H u s1 Hm. apply put_inv in Hm as ->.
  bind_step H b s1 Hm. apply hashtable_insert_inv in Hm.
  apply ret_inv in H as [-> ->]. split; [reflexivity | exact Hm].
Qed.


Lemma successor_has_inv s idx a st r st' :
  successor_has s idx a st = Some (r, st') ->
  st' = st /\
  (r = true -> exists i h m, In i idx /\ nth i s None = Some h /\
               nodes st !! h = Some m /\ address (instruction m) = a).
Proof.
  revert st r st'. induction idx as [| i idx IH]; intros st r st' H;
    cbn [successor_has] in H.
  - apply ret_inv in H as [-> ->]. split; [auto | discriminate].
  - bind_step H p s1 Hm. apply cell_read_inv in Hm as (Hi & -> & ->).
    destruct (nth (Z.to_nat (Z.of_nat i)) s None) as [h |] eqn:Eh; [| discriminate].
    rewrite Nat2Z.id in Eh.
    bind_step H x s1 Hm. apply node_address_inv in Hm as [-> (m & Hn & ->)].
    destruct (address (instruction m) =? a) eqn:E.
    + apply ret_inv in H as [-> ->]. split; [auto |]. intros _.
      exists i, h, m. split; [left; auto |]. split; [exact Eh |]. split; [exact Hn | lia].
    + destruct (IH _ _ _ H) as [-> Hr]. split; [auto |].
      intros Hrt. destruct (Hr Hrt) as (i' & h' & m' & Hin & Hr').
      exists i', h', m'. split; [right; exact Hin | exact Hr'].
Qed.

Lemma link_inv src new slot st u st' c :
  link src new slot st = Some (u, st') -> nodes st !! src = Some c ->
  0 <= slot < Z.of_nat (length (successor c)) /\
  (exists c', nodes st' !! src = Some c' /\ instruction c' = instruction c /\
     successor c' = <[Z.to_nat slot := Some new]> (successor c) /\
     nb_out c' = wrap16 (nb_out c + 1)) /\
  (exists m', nodes st' !! new = Some m' /\ name m' = name c) /\
  (forall h, h <> src -> h <> new -> nodes st' !! h = nodes st !! h) /\
  (forall h m, nodes st !! h = Some m ->
     exists m', nodes st' !! h = Some m' /\ instruction m' = instruction m /\
       (h <> src -> successor m' = successor m /\ nb_out m' = nb_out m)) /\
  st' = set_nodes st (nodes st').
Proof.
  unfold link. intros H Hsrc.
  bind_step H c0 s1 Hm. apply get_node_inv in Hm as [Hc0 ->].
  rewrite Hsrc in Hc0. injection Hc0 as <-.
  bind_step H sl s1 Hm. apply cell_write_inv in Hm as (Hslot & -> & ->).
  bind_step H u1 s1 Hm. apply put_node_inv in Hm as [Hlt1 ->].
  bind_step H c1 s1 Hm. apply get_node_inv in Hm as [Hc1 ->].
  cbn [nodes set_nodes] in Hc1. rewrite list_lookup_insert_eq in Hc1 by lia.
  injection Hc1 as <-.
  bind_step H u2 s1 Hm. apply put_node_inv in Hm as [Hlt2 ->].
  bind_step H m s1 Hm. apply get_node_inv in Hm as [Hm1 ->].
  bind_step H u3 s1 Hm. apply put_node_inv in Hm as [Hlt3 ->].
  bind_step H c3 s1 Hm. apply get_node_inv in Hm as [Hc3 ->].
  bind_step H m3 s1 Hm. apply get_node_inv in Hm as [Hm3 ->].
  apply put_node_inv in H as [Hlt4 ->].
  cbn [nodes set_nodes] in *. rewrite ?length_insert in *.
  split; [exact Hslot |].
  destruct (decide (new = src)) as [-> | Hne].
  - rewrite list_lookup_insert_eq in Hm1, Hc3, Hm3 by (rewrite ?length_insert; lia).
    injection Hm1 as <-. injection Hm3 as <-. injection Hc3 as <-.
    split.
    { eexists. rewrite list_lookup_insert_eq by (rewrite ?length_insert; lia).
      split; [reflexivity |]. cbn. auto. }
    split.
    { eexists. rewrite list_lookup_insert_eq by (rewrite ?length_insert; lia).
      split; [reflexivity |]. reflexivity. }
    split.
    { intros h Hh _. rewrite !list_lookup_insert_ne by congruence. reflexivity. }
    split; [| reflexivity].
    intros h m0 Hh. rewrite !list_lookup_insert. lookup_frame.
  - rewrite list_lookup_insert_ne in Hm1 by congruence.
    rewrite list_lookup_insert_ne in Hm1 by congruence.
    rewrite list_lookup_insert_ne in Hc3 by congruence.
    rewrite list_lookup_insert_eq in Hc3 by (rewrite ?length_insert; lia).
    injection Hc3 as <-.
    rewrite list_lookup_insert_eq in Hm3 by (rewrite ?length_insert; lia).
    injection Hm3 as <-.
    split.
    { eexists. rewrite list_lookup_insert_ne by congruence.
      rewrite list_lookup_insert_ne by congruence.
      rewrite list_lookup_insert_eq by (rewrite ?length_insert; lia).
      split; [reflexivity |]. cbn. auto. }
    split.
    { eexists. rewrite list_lookup_insert_eq by (rewrite ?length_insert; lia).
      split; [reflexivity |]. reflexivity. }
    split.
    { intros h Hh Hh'. rewrite !list_lookup_insert_ne by congruence. reflexivity. }
    split; [| reflexivity].
    intros h m0 Hh. rewrite !list_lookup_insert. lookup_frame.
Qed.


Lemma nth_slot_insert_eq (i : nat) (v : option nat) (l : list (option nat)) :
  (i < length l)%nat -> nth i (<[i := v]> l) None = v.
Proof. intros H. apply nth_lookup_Some. apply list_lookup_insert_eq. exact H. Qed.

Lemma nth_slot_insert_ne (i j : nat) (v : option nat) (l : list (option nat)) :
  i <> j -> nth j (<[i := v]> l) None = nth j l None.
Proof.
  revert i j. induction l as [| y l IH]; intros i j Hij; [reflexivity |].
  destruct i, j; cbn; try reflexivity; [congruence |]. apply IH. congruence.
Qed.

Lemma grow_inv src st u st' c :
  grow src st = Some (u, st') -> nodes st !! src = Some c ->
  nodes st' !! src = Some (with_successor c (grown_slots c)) /\
  (forall h, h <> src -> nodes st' !! h = nodes st !! h) /\
  (forall h m, nodes st !! h = Some m ->
     exists m', nodes st' !! h = Some m' /\ instruction m' = instruction m) /\
  st' = set_nodes st (nodes st').
Proof.
  unfold grow, grown_slots. intros H Hsrc.
  bind_step H c0 s1 Hm. apply get_node_inv in Hm as [Hc0 ->].
  rewrite Hsrc in Hc0. injection Hc0 as <-.
  destruct (is_power_2 (nb_out c)).
  - apply put_node_inv in H as [Hlt ->]. cbn [nodes set_nodes].
    split; [apply list_lookup_insert_eq; exact Hlt |].
    split; [intros h Hh; apply list_lookup_insert_ne; congruence |].
    split; [| reflexivity].
    intros h m Hh. rewrite list_lookup_insert. lookup_frame.
  - apply ret_inv in H as [_ ->]. split; [rewrite Hsrc; destruct c; reflexivity |].
    split; [auto |]. split; [eauto | apply state_eta].
Qed.

Lemma aux_first_free x new st r st' c :
  aux_cfg_insert x new st = Some (r, st') -> nodes st !! x = Some c ->
  type (instruction c) <> RET -> nth 0 (successor c) None = None ->
  r = Some new /\ exists u, link x new 0 st = Some (u, st').
Proof.
  unfold aux_cfg_insert. intros H Hx Hty H0.
  bind_step H c0 s1 Hm. apply get_node_inv in Hm as [Hc0 ->].
  rewrite Hx in Hc0. injection Hc0 as <-.
  destruct (instr_type_eqb (type (instruction c)) RET) eqn:Er;
    [destruct (type (instruction c)); try discriminate; congruence |].
  bind_step H ff s1 Hm. bind_step Hm s0 s2 Hs0. apply cell_read_inv in Hs0 as (_ & -> & ->).
  apply ret_inv in Hm as [-> ->]. change (Z.to_nat 0) with 0%nat in H. rewrite H0 in H. cbn in H.
  bind_step H u s1 Hm. apply ret_inv in H as [-> ->]. eauto.
Qed.

Lemma aux_branch_taken x new st r st' c :
  aux_cfg_insert x new st = Some (r, st') -> nodes st !! x = Some c ->
  type (instruction c) = BRANCH -> nth 0 (successor c) None <> None ->
  (2 <= nb_out c -> r = None /\ st' = st) /\
  (nb_out c < 2 -> r = Some new /\ exists u, link x new 1 st = Some (u, st')).
Proof.
  unfold aux_cfg_insert. intros H Hx Hty H0.
  bind_step H c0 s1 Hm. apply get_node_inv in Hm as [Hc0 ->].
  rewrite Hx in Hc0. injection Hc0 as <-. rewrite Hty in H. cbn [instr_type_eqb] in H.
  bind_step H ff s1 Hm. bind_step Hm s0 s2 Hs0. apply cell_read_inv in Hs0 as (_ & -> & ->).
  apply ret_inv in Hm as [-> ->]. change (Z.to_nat 0) with 0%nat in H.
  destruct (nth 0 (successor c) None) as [o |]; [| congruence]. cbn [is_some negb] in H.
  destruct (2 <=? nb_out c) eqn:E.
  - apply ret_inv in H as [-> ->]. apply Z.leb_le in E. split; [auto | lia].
  - apply Z.leb_gt in E. split; [lia |]. intros _.
    bind_step H u s1 Hm. apply ret_inv in H as [-> ->]. eauto.
Qed.


Lemma instr_type_eqb_false (a b : instr_type) : a <> b -> instr_type_eqb a b = false.
Proof. destruct a, b; cbn; congruence. Qed.

(** [cfg_insert] from a node that is not a CALL: a lookup or a fresh
    node [new] carrying the address of [ins], then either the early
    return on a successor of that address, or [aux_cfg_insert]. *)
Lemma cfg_insert_noncall x ins st r st' c :
  nodes st !! x = Some c -> type (instruction c) <> CALL ->
  cfg_insert x ins st = Some (r, st') ->
  exists new st1 m,
    nodes st1 !! new = Some m /\ address (instruction m) = address ins /\
    (forall h m0, nodes st !! h = Some m0 -> nodes st1 !! h = Some m0) /\
    st1 = set_table (set_nodes st (nodes st1)) (table st1) /\
    ((r = Some new /\ st' = st1 /\
      exists i h m1, (i < Z.to_nat (nb_out c))%nat /\ nth i (successor c) None = Some h /\
        nodes st !! h = Some m1 /\ address (instruction m1) = address ins) \/
     aux_cfg_insert x new st1 = Some (r, st')).
Proof.
  intros Hx Hty. unfold cfg_insert. intros H.
  bind_step H c0 s1 Hm. apply get_node_inv in Hm as [Hc0 ->].
  rewrite Hx in Hc0. injection Hc0 as <-.
  bind_step H fnd s1 Hm. apply hashtable_lookup_inv in Hm as [-> Hf].
  rewrite (instr_type_eqb_false _ _ Hty) in H.
  destruct fnd as [new |].
  - destruct (Hf new eq_refl) as (m & Hn & Ha).
    bind_step H u s1 Hm. apply ret_inv in Hm as [_ ->].
    bind_step H c1 s1 Hm. apply get_node_inv in Hm as [Hc1 ->].
    rewrite Hx in Hc1. injection Hc1 as <-.
    bind_step H a s1 Hm. apply node_address_inv in Hm as [-> (m' & Hn' & ->)].
    rewrite Hn in Hn'. injection Hn' as <-.
    bind_step H hit s1 Hm. apply successor_has_inv in Hm as [-> Hhit].
    exists new, st, m. split; [exact Hn |]. split; [exact Ha |].
    split; [auto |]. split; [apply state_eta |].
    destruct hit.
    + apply ret_inv in H as [-> ->]. left. split; [auto |]. split; [auto |].
      destruct (Hhit eq_refl) as (i & h & m1 & Hin & Hnth & Hm1 & Ha1).
      apply in_seq in Hin. exists i, h, m1. split; [lia |]. rewrite <- Ha. auto.
    + right. exact H.
  - bind_step H new s1 Hm. apply cfg_new_inv in Hm as [-> Hs1].
    bind_step H u s2 Hm. apply ret_inv in Hm as [_ ->].
    exists (length (nodes st)), s1, (fresh_node ins).
    assert (Hns : nodes s1 = nodes st ++ [fresh_node ins]) by (rewrite Hs1; reflexivity).
    split; [rewrite Hns, lookup_app_r, Nat.sub_diag by lia; reflexivity |].
    split; [reflexivity |].
    split; [intros h m0 Hh; rewrite Hns; apply lookup_app_l_Some; exact Hh |].
    split; [| right; exact H].
    rewrite Hs1 at 1. rewrite Hns. reflexivity.
Qed.


(** [aux_cfg_insert] from a RET node [x]: [depth--]; the caller on
    [stack[depth]]; on a return right after the caller, [stack[depth]] is
    cleared and the caller is the source of the edge; otherwise [depth++]
    and [x] is the source. *)
Lemma aux_ret x new st r st' c :
  aux_cfg_insert x new st = Some (r, st') -> nodes st !! x = Some c ->
  type (instruction c) = RET ->
  let d' := wrap16 (depth st - 1) in
  exists k ck m, nth (Z.to_nat d') (stack st) None = Some k /\
    0 <= d' < Z.of_nat (length (stack st)) /\
    nodes st !! k = Some ck /\ nodes st !! new = Some m /\ r = Some new /\
    ((address (instruction m) = wrap64 (address (instruction ck) + size (instruction ck)) /\
      exists st2 c2 u1 u2,
        grow k (set_stack (set_depth st d') (<[Z.to_nat d' := None]> (stack st)))
          = Some (u1, st2) /\
        nodes st2 !! k = Some c2 /\ nb_out c2 = nb_out ck /\
        link k new (nb_out c2) st2 = Some (u2, st')) \/
     (address (instruction m) <> wrap64 (address (instruction ck) + size (instruction ck)) /\
      exists st2 c2 u1 u2,
        grow x (set_depth (set_depth st d') (wrap16 (d' + 1))) = Some (u1, st2) /\
        nodes st2 !! x = Some c2 /\ nb_out c2 = nb_out c /\
        link x new (nb_out c2) st2 = Some (u2, st'))).
Proof.
  intros H Hx Hty d'. unfold aux_cfg_insert in H.
  bind_step H c0 s1 Hm. apply get_node_inv in Hm as [Hc0 ->].
  rewrite Hx in Hc0. injection Hc0 as <-. rewrite Hty in H. cbn [instr_type_eqb] in H.
  bind_step H ff s1 Hm. apply ret_inv in Hm as [-> ->].
  bind_step H s0 s1 Hm. apply get_inv in Hm as [-> ->].
  bind_step H u s1 Hm. apply put_inv in Hm as ->.
  bind_step H s0 s1 Hm. apply get_inv in Hm as [-> ->].
  bind_step H tp s1 Hm. unfold stack_read in Hm.
  bind_step Hm s0 s2 Hs. apply get_inv in Hs as [-> ->].
  apply cell_read_inv in Hm as (Hd & Htop & ->). cbn [depth stack set_depth] in Hd, Htop, H.
  destruct tp as [k |]; [| discriminate].
  bind_step H m s1 Hm. apply get_node_inv in Hm as [Hmn ->].
  bind_step H ck s1 Hm. apply get_node_inv in Hm as [Hck ->].
  cbn [nodes set_depth] in Hmn, Hck.
  exists k, ck, m. split; [symmetry; exact Htop |]. split; [exact Hd |].
  split; [exact Hck |]. split; [exact Hmn |].
  destruct (address (instruction m) =? wrap64 (address (instruction ck) + size (instruction ck)))
    eqn:Ea.
  - apply Z.eqb_eq in Ea.
    bind_step H src s1 Hm. bind_step Hm w s2 Hw. unfold stack_write in Hw.
    bind_step Hw s0 s3 Hg. apply get_inv in Hg as [-> ->].
    bind_step Hw sk s3 Hc. apply cell_write_inv in Hc as (_ & -> & ->).
    apply put_inv in Hw as ->. apply ret_inv in Hm as [-> ->].
    bind_step H u1 st2 Hg. bind_step H c2 s3 Hc2. apply get_node_inv in Hc2 as [Hc2 ->].
    bind_step H u2 s3 Hl. apply ret_inv in H as [-> ->].
    split; [reflexivity |]. left. split; [exact Ea |].
    pose proof Hg as Hg'. apply grow_inv with (c := ck) in Hg' as [Hk2 _];
      [| exact Hck].
    rewrite Hc2 in Hk2. injection Hk2 as ->.
    exists st2, (with_successor ck (grown_slots ck)), u1, u2.
    split; [exact Hg |]. split; [exact Hc2 |]. split; [reflexivity | exact Hl].
  - apply Z.eqb_neq in Ea.
    bind_step H src s1 Hm. bind_step Hm s0 s2 Hg. apply get_inv in Hg as [-> ->].
    bind_step Hm w s2 Hp. apply put_inv in Hp as ->. apply ret_inv in Hm as [-> ->].
    bind_step H u1 st2 Hg. bind_step H c2 s3 Hc2. apply get_node_inv in Hc2 as [Hc2 ->].
    bind_step H u2 s3 Hl. apply ret_inv in H as [-> ->].
    split; [reflexivity |]. right. split; [exact Ea |].
    pose proof Hg as Hg'. apply grow_inv with (c := c) in Hg' as [Hk2 _];
      [| exact Hx].
    rewrite Hc2 in Hk2. injection Hk2 as ->.
    exists st2, (with_successor c (grown_slots c)), u1, u2.
    split; [exact Hg |]. split; [exact Hc2 |]. split; [reflexivity | exact Hl].
Qed.


(** [grow] followed by the [link] at [nb_out], as on the JUMP growth
    policy. *)
Lemma grow_link src new st1 st2 st' u1 u2 c c2 :
  grow src st1 = Some (u1, st2) -> nodes st1 !! src = Some c ->
  nodes st2 !! src = Some c2 -> link src new (nb_out c2) st2 = Some (u2, st') ->
  (exists c', nodes st' !! src = Some c' /\
     successor c' = <[Z.to_nat (nb_out c) := Some new]> (grown_slots c) /\
     nb_out c' = wrap16 (nb_out c + 1)) /\
  (forall h m, h <> src -> nodes st1 !! h = Some m ->
     exists m', nodes st' !! h = Some m' /\ successor m' = successor m /\
       nb_out m' = nb_out m) /\
  (forall m, nodes st1 !! new = Some m ->
     exists m', nodes st' !! new = Some m' /\ instruction m' = instruction m /\
       name m' = name c) /\
  st' = set_nodes st1 (nodes st').
Proof.
  intros Hg Hc Hc2 Hl.
  destruct (grow_inv _ _ _ _ _ Hg Hc) as (Hs2 & Hoth & Hfr & Hst2).
  rewrite Hs2 in Hc2. injection Hc2 as <-.
  destruct (link_inv _ _ _ _ _ _ _ Hl Hs2)
    as (_ & (c' & Hc' & _ & Hsc & Hoc) & (mn & Hmn & Hname) & _ & Hlfr & Hst').
  split; [exists c'; split; [exact Hc' |]; split; [exact Hsc | exact Hoc] |].
  split.
  - intros h m Hh Hm. rewrite <- (Hoth h Hh) in Hm.
    destruct (Hlfr _ _ Hm) as (m' & Hm' & _ & Hkeep).
    destruct (Hkeep Hh) as [Hs Ho]. eauto.
  - split.
    + intros m Hm. destruct (Hfr _ _ Hm) as (m2 & Hm2 & Hi2).
      destruct (Hlfr _ _ Hm2) as (m' & Hm' & Hi' & _).
      rewrite Hmn in Hm'. injection Hm' as <-.
      exists mn. split; [exact Hmn |]. split; [congruence | exact Hname].
    + rewrite Hst', Hst2. reflexivity.
Qed.

Lemma wrap16_small (z : Z) : 0 <= z < 2 ^ 16 -> wrap16 z = z.
Proof. intros H. unfold wrap16. apply Z.mod_small. exact H. Qed.

End TraceStore.

(** C9: let [x] be a BRANCH node and [ins] an instruction whose address is
    not the address of one of the [nb_out] successors of [x]. When
    [cfg_insert] from [x] completes: from no edge, the edge goes to
    [successor[0]] and [nb_out] becomes 1; from one edge, it goes to
    [successor[1]], [successor[0]] is kept, and [nb_out] becomes 2; from two
    edges, the insertion returns NULL and [x] is left as it was. The target
    of the edge is the node of [ins]'s address. *)
Theorem branch_successors (st st' : Trace.state) (x : nat) (cx : Trace.cfg_node)
  (ins : Trace.instr) (r : option nat) :
  Trace.nodes st !! x = Some cx ->
  Trace.type (Trace.instruction cx) = Trace.BRANCH ->
  (forall j h m, (j < Z.to_nat (Trace.nb_out cx))%nat ->
     nth j (Trace.successor cx) None = Some h -> Trace.nodes st !! h = Some m ->
     Trace.address (Trace.instruction m) <> Trace.address ins) ->
  Trace.cfg_insert x ins st = Some (r, st') ->
  exists cx', Trace.nodes st' !! x = Some cx' /\
  (Trace.nb_out cx = 0 -> nth 0 (Trace.successor cx) None = None ->
     exists n m, r = Some n /\ nth 0 (Trace.successor cx') None = Some n /\
       Trace.nb_out cx' = 1 /\ Trace.nodes st' !! n = Some m /\
       Trace.address (Trace.instruction m) = Trace.address ins) /\
  (Trace.nb_out cx = 1 -> nth 0 (Trace.successor cx) None <> None ->
     exists n m, r = Some n /\
       nth 0 (Trace.successor cx') None = nth 0 (Trace.successor cx) None /\
       nth 1 (Trace.successor cx') None = Some n /\ Trace.nb_out cx' = 2 /\
       Trace.nodes st' !! n = Some m /\
       Trace.address (Trace.instruction m) = Trace.address ins) /\
  (Trace.nb_out cx = 2 -> nth 0 (Trace.successor cx) None <> None ->
     r = None /\ cx' = cx).
Proof.
  intros Hx Hty Hdist H.
  assert (Hnc : Trace.type (Trace.instruction cx) <> Trace.CALL) by (rewrite Hty; discriminate).
  destruct (cfg_insert_noncall _ _ _ _ _ _ Hx Hnc H)
    as (new & st1 & m & Hn & Ha & Hpres & _ & [(_ & _ & i & h & m1 & Hi & Hh & Hm1 & Ha1) | Haux]).
  { exfalso. exact (Hdist i h m1 Hi Hh Hm1 Ha1). }
  pose proof (Hpres _ _ Hx) as Hx1.
  destruct (nth 0 (Trace.successor cx) None) as [o |] eqn:E0.
  - assert (Hne : nth 0 (Trace.successor cx) None <> None) by congruence.
    destruct (aux_branch_taken _ _ _ _ _ _ Haux Hx1 Hty Hne) as [Hfull Hone].
    destruct (Z_lt_le_dec (Trace.nb_out cx) 2) as [Hlt | Hge].
    + destruct (Hone Hlt) as [-> [u Hl]].
      destruct (link_inv _ _ _ _ _ _ _ Hl Hx1)
        as (Hslot & (c' & Hc' & _ & Hs' & Ho') & _ & _ & Hfr & _).
      destruct (Hfr _ _ Hn) as (m' & Hm' & Him & _).
      exists c'. split; [exact Hc' |]. split; [intros _ Hc; congruence |].
      split; [| intros; lia].
      intros Hone' _. exists new, m'. split; [reflexivity |].
      rewrite Hs', nth_slot_insert_ne by (cbn; lia). split; [exact E0 |].
      split; [apply nth_slot_insert_eq; cbn in Hslot |- *; lia |].
      split; [rewrite Ho', Hone'; reflexivity |].
      split; [exact Hm' | rewrite Him; exact Ha].
    + destruct (Hfull Hge) as [-> ->].
      exists cx. split; [exact Hx1 |].
      split; [intros; lia |]. split; [intros; lia |]. auto.
  - destruct (aux_first_free _ _ _ _ _ _ Haux Hx1 ltac:(rewrite Hty; discriminate) E0)
      as [-> [u Hl]].
    destruct (link_inv _ _ _ _ _ _ _ Hl Hx1)
      as (Hslot & (c' & Hc' & _ & Hs' & Ho') & _ & _ & Hfr & _).
    destruct (Hfr _ _ Hn) as (m' & Hm' & Him & _).
    exists c'. split; [exact Hc' |].
    split; [| split; intros _ Hc; congruence].
    intros Hzero _. exists new, m'. split; [reflexivity |].
    rewrite Hs'. split; [apply nth_slot_insert_eq; cbn in Hslot |- *; lia |].
    split; [rewrite Ho', Hzero; reflexivity |].
    split; [exact Hm' | rewrite Him; exact Ha].
Qed.

Lemma branch_successors_witness :
  Trace.nodes Trace.Scenario.branch_st !! 0%nat =
    Some (Trace.Scenario.node_of Trace.Scenario.branch_st 0) /\
  Trace.type (Trace.instruction (Trace.Scenario.node_of Trace.Scenario.branch_st 0)) =
    Trace.BRANCH /\
  Trace.cfg_insert 0 Trace.Scenario.iZ Trace.Scenario.branch_st =
    Some (Some 2%nat, Trace.Scenario.branch_st') /\
  exists cx', Trace.nodes Trace.Scenario.branch_st' !! 0%nat = Some cx' /\
  (Trace.nb_out (Trace.Scenario.node_of Trace.Scenario.branch_st 0) = 1 ->
   nth 0 (Trace.successor (Trace.Scenario.node_of Trace.Scenario.branch_st 0)) None <> None ->
   exists n m, Some 2%nat = Some n /\
     nth 0 (Trace.successor cx') None =
       nth 0 (Trace.successor (Trace.Scenario.node_of Trace.Scenario.branch_st 0)) None /\
     nth 1 (Trace.successor cx') None = Some n /\ Trace.nb_out cx' = 2 /\
     Trace.nodes Trace.Scenario.branch_st' !! n = Some m /\
     Trace.address (Trace.instruction m) = Trace.address Trace.Scenario.iZ).
Proof.
  assert (H1 : Trace.nodes Trace.Scenario.branch_st !! 0%nat =
                 Some (Trace.Scenario.node_of Trace.Scenario.branch_st 0))
    by (vm_compute; reflexivity).
  assert (H2 : Trace.type (Trace.instruction (Trace.Scenario.node_of Trace.Scenario.branch_st 0))
                 = Trace.BRANCH) by (vm_compute; reflexivity).
  assert (H3 : forall j h m,
     (j < Z.to_nat (Trace.nb_out (Trace.Scenario.node_of Trace.Scenario.branch_st 0)))%nat ->
     nth j (Trace.successor (Trace.Scenario.node_of Trace.Scenario.branch_st 0)) None = Some h ->
     Trace.nodes Trace.Scenario.branch_st !! h = Some m ->
     Trace.address (Trace.instruction m) <> Trace.address Trace.Scenario.iZ).
  { intros j h m Hj. vm_compute in Hj. destruct j as [| j]; [| lia].
    vm_compute. intros Hh. injection Hh as <-. intros Hm. injection Hm as <-. discriminate. }
  assert (H4 : Trace.cfg_insert 0 Trace.Scenario.iZ Trace.Scenario.branch_st =
                 Some (Some 2%nat, Trace.Scenario.branch_st')) by (vm_compute; reflexivity).
  refine (conj H1 (conj H2 (conj H4 _))).
  destruct (branch_successors _ _ _ _ _ _ H1 H2 H3 H4) as (cx' & Hc & _ & Hb & _).
  exists cx'. exact (conj Hc Hb).
Defined.

(** C2 (amended): let [d] be a RET node, [1 <= depth <= 256], [k] the
    caller on [stack[depth - 1]] and [ins] an instruction whose address is
    not that of a successor of [d]. When [cfg_insert] from [d] completes,
    the edge goes to the node [n] of [ins]'s address, and
    - if that address is [caller.address + caller.size], the frame is
      popped ([depth - 1], [stack[depth - 1]] cleared), the edge is
      appended to the caller's successors at [nb_out] after the JUMP growth
      policy, [d]'s successors are untouched and [n] takes the caller's
      [name];
    - otherwise the call stack is restored ([depth] and [stack] as before),
      the edge is appended to [d]'s successors in the same way, the
      caller's successors are untouched and [n] takes [d]'s [name]. *)
Theorem ret_successor (st st' : Trace.state) (d k : nat) (cd ck : Trace.cfg_node)
  (ins : Trace.instr) (r : option nat) :
  Trace.nodes st !! d = Some cd -> Trace.type (Trace.instruction cd) = Trace.RET ->
  1 <= Trace.depth st <= 256 ->
  nth (Z.to_nat (Trace.depth st - 1)) (Trace.stack st) None = Some k ->
  Trace.nodes st !! k = Some ck -> k <> d ->
  (forall j h m, (j < Z.to_nat (Trace.nb_out cd))%nat ->
     nth j (Trace.successor cd) None = Some h -> Trace.nodes st !! h = Some m ->
     Trace.address (Trace.instruction m) <> Trace.address ins) ->
  Trace.cfg_insert d ins st = Some (r, st') ->
  exists n m, r = Some n /\ Trace.nodes st' !! n = Some m /\
  Trace.address (Trace.instruction m) = Trace.address ins /\
  (Trace.address ins =
     wrap64 (Trace.address (Trace.instruction ck) + Trace.size (Trace.instruction ck)) ->
   Trace.depth st' = Trace.depth st - 1 /\
   Trace.stack st' = <[Z.to_nat (Trace.depth st - 1) := None]> (Trace.stack st) /\
   (exists ck', Trace.nodes st' !! k = Some ck' /\
      Trace.successor ck' = <[Z.to_nat (Trace.nb_out ck) := Some n]> (Trace.grown_slots ck) /\
      Trace.nb_out ck' = wrap16 (Trace.nb_out ck + 1)) /\
   (exists cd', Trace.nodes st' !! d = Some cd' /\
      Trace.successor cd' = Trace.successor cd /\ Trace.nb_out cd' = Trace.nb_out cd) /\
   Trace.name m = Trace.name ck) /\
  (Trace.address ins <>
     wrap64 (Trace.address (Trace.instruction ck) + Trace.size (Trace.instruction ck)) ->
   Trace.depth st' = Trace.depth st /\ Trace.stack st' = Trace.stack st /\
   (exists cd', Trace.nodes st' !! d = Some cd' /\
      Trace.successor cd' = <[Z.to_nat (Trace.nb_out cd) := Some n]> (Trace.grown_slots cd) /\
      Trace.nb_out cd' = wrap16 (Trace.nb_out cd + 1)) /\
   (exists ck', Trace.nodes st' !! k = Some ck' /\
      Trace.successor ck' = Trace.successor ck /\ Trace.nb_out ck' = Trace.nb_out ck) /\
   Trace.name m = Trace.name cd).
Proof.
  intros Hd Hty Hdep Hk Hck Hkd Hdist H.
  assert (Hnc : Trace.type (Trace.instruction cd) <> Trace.CALL) by (rewrite Hty; discriminate).
  destruct (cfg_insert_noncall _ _ _ _ _ _ Hd Hnc H)
    as (new & st1 & m0 & Hn & Ha & Hpres & Hst1 & [(_ & _ & i & h & m1 & Hi & Hh & Hm1 & Ha1) | Haux]).
  { exfalso. exact (Hdist i h m1 Hi Hh Hm1 Ha1). }
  pose proof (Hpres _ _ Hd) as Hd1. pose proof (Hpres _ _ Hck) as Hk1.
  assert (Hdep1 : Trace.depth st1 = Trace.depth st) by (rewrite Hst1; reflexivity).
  assert (Hstk1 : Trace.stack st1 = Trace.stack st) by (rewrite Hst1; reflexivity).
  destruct (aux_ret _ _ _ _ _ _ Haux Hd1 Hty)
    as (k' & ck' & m1 & Htop & Hbd & Hk' & Hmn & -> & Hcase).
  rewrite Hdep1, Hstk1, wrap16_small in Htop, Hbd by lia.
  rewrite Hk in Htop. injection Htop as <-.
  rewrite Hk1 in Hk'. injection Hk' as <-.
  rewrite Hn in Hmn. injection Hmn as <-.
  rewrite Hdep1, wrap16_small in Hcase by lia.
  destruct Hcase as [(Hmatch & st2 & c2 & u1 & u2 & Hg & Hc2 & _ & Hl)
                    | (Hmis & st2 & c2 & u1 & u2 & Hg & Hc2 & _ & Hl)].
  - destruct (grow_link _ _ _ _ _ _ _ _ _ Hg Hk1 Hc2 Hl)
      as (Hsrc & Hoth & Hnew & Hst').
    destruct (Hnew _ Hn) as (m & Hm & Him & Hnm).
    exists new, m. split; [reflexivity |]. split; [exact Hm |].
    split; [rewrite Him; exact Ha |].
    split; [| intros Hne; exfalso; apply Hne; rewrite <- Ha; exact Hmatch].
    intros _. rewrite Hst'. cbn [Trace.depth Trace.stack Trace.set_nodes Trace.set_stack
                                 Trace.set_depth].
    split; [reflexivity |]. split; [rewrite Hstk1; reflexivity |].
    split; [exact Hsrc |]. split; [| exact Hnm].
    destruct (Hoth d cd ltac:(congruence) Hd1) as (cd' & Hcd' & Hs & Ho).
    exists cd'. rewrite <- Hst'. auto.
  - destruct (grow_link _ _ _ _ _ _ _ _ _ Hg Hd1 Hc2 Hl)
      as (Hsrc & Hoth & Hnew & Hst').
    destruct (Hnew _ Hn) as (m & Hm & Him & Hnm).
    exists new, m. split; [reflexivity |]. split; [exact Hm |].
    split; [rewrite Him; exact Ha |].
    split; [intros Hmatch; exfalso; apply Hmis; rewrite Ha; exact Hmatch |].
    intros _. rewrite Hst'. cbn [Trace.depth Trace.stack Trace.set_nodes Trace.set_depth].
    rewrite wrap16_small by lia.
    split; [lia |]. split; [exact Hstk1 |].
    split; [exact Hsrc |]. split; [| exact Hnm].
    destruct (Hoth k ck Hkd Hk1) as (ck'' & Hck'' & Hs & Ho).
    exists ck''. auto.
Qed.

(** C2 (counterexample): in scenario 5, from RET(D) with B on the call
    stack ([depth = 1]) to C, which is not right after B, the call stack is
    not left popped: [depth] is back to 1 and B is still on [stack[0]]. *)
Lemma ret_mismatch_restores_depth :
  Trace.type (Trace.instruction (Trace.Scenario.node_of Trace.Scenario.ret_st 3)) = Trace.RET /\
  Trace.depth Trace.Scenario.ret_st = 1 /\
  nth 0 (Trace.stack Trace.Scenario.ret_st) None = Some 1%nat /\
  Trace.address Trace.Scenario.iC <>
    wrap64 (Trace.address Trace.Scenario.iB + Trace.size Trace.Scenario.iB) /\
  Trace.cfg_insert 3 Trace.Scenario.iC Trace.Scenario.ret_st =
    Some (Some 2%nat, Trace.Scenario.ret_mis_st) /\
  Trace.depth Trace.Scenario.ret_mis_st = 1 /\
  nth 0 (Trace.stack Trace.Scenario.ret_mis_st) None = Some 1%nat.
Proof.
  split; [vm_compute; reflexivity |]. split; [vm_compute; reflexivity |].
  split; [vm_compute; reflexivity |]. split; [vm_compute; discriminate |].
  split; [vm_compute; reflexivity |]. split; vm_compute; reflexivity.
Qed.

Lemma ret_successor_witness :
  exists n m, Some 4%nat = Some n /\ Trace.nodes Trace.Scenario.ret_ok_st !! n = Some m /\
  Trace.address (Trace.instruction m) = Trace.address Trace.Scenario.iE.
Proof.
  assert (H1 : Trace.nodes Trace.Scenario.ret_st !! 3%nat =
                 Some (Trace.Scenario.node_of Trace.Scenario.ret_st 3)) by (vm_compute; reflexivity).
  assert (H2 : Trace.type (Trace.instruction (Trace.Scenario.node_of Trace.Scenario.ret_st 3))
                 = Trace.RET) by (vm_compute; reflexivity).
  assert (H3 : 1 <= Trace.depth Trace.Scenario.ret_st <= 256) by (vm_compute; split; discriminate).
  assert (H4 : nth (Z.to_nat (Trace.depth Trace.Scenario.ret_st - 1))
                 (Trace.stack Trace.Scenario.ret_st) None = Some 1%nat) by (vm_compute; reflexivity).
  assert (H5 : Trace.nodes Trace.Scenario.ret_st !! 1%nat =
                 Some (Trace.Scenario.node_of Trace.Scenario.ret_st 1)) by (vm_compute; reflexivity).
  assert (H6 : 1%nat <> 3%nat) by lia.
  assert (H7 : forall j h m,
     (j < Z.to_nat (Trace.nb_out (Trace.Scenario.node_of Trace.Scenario.ret_st 3)))%nat ->
     nth j (Trace.successor (Trace.Scenario.node_of Trace.Scenario.ret_st 3)) None = Some h ->
     Trace.nodes Trace.Scenario.ret_st !! h = Some m ->
     Trace.address (Trace.instruction m) <> Trace.address Trace.Scenario.iE).
  { intros j h m Hj. vm_compute in Hj. lia. }
  assert (H8 : Trace.cfg_insert 3 Trace.Scenario.iE Trace.Scenario.ret_st =
                 Some (Some 4%nat, Trace.Scenario.ret_ok_st)) by (vm_compute; reflexivity).
  destruct (ret_successor _ _ _ _ _ _ _ _ H1 H2 H3 H4 H5 H6 H7 H8)
    as (n & m & Hr & Hm & Ha & _).
  exists n, m. auto.
Defined.

(** C3 (failing input): in scenario 5, C is created by the insertion from
    CALL(B): B is pushed, [nb_name] becomes 1 and [function_entry[1]] is C,
    but C's [name] is B's, 0, and not the new id 1. *)
Theorem call_target_keeps_caller_name :
  Trace.Scenario.run [Trace.Scenario.iB; Trace.Scenario.iC] =
    Some (Some 2%nat, Trace.Scenario.call_st) /\
  Trace.type (Trace.instruction (Trace.Scenario.node_of Trace.Scenario.call_st 1)) = Trace.CALL /\
  Trace.depth Trace.Scenario.call_st = 1 /\
  nth 0 (Trace.stack Trace.Scenario.call_st) None = Some 1%nat /\
  Trace.nb_name Trace.Scenario.call_st = 1 /\
  nth 1 (Trace.function_entry Trace.Scenario.call_st) None = Some 2%nat /\
  Trace.name (Trace.Scenario.node_of Trace.Scenario.call_st 2) = 0.
Proof.
  split; [vm_compute; reflexivity |].
  repeat split; vm_compute; reflexivity.
Qed.

(* ================================================================= *)
(** * Further properties of the code *)
(* ================================================================= *)

(** ** traces.c: the instruction table *)

Section TracesTable.
Import Traces.

Lemma strncmp_refl (s : list Byte.byte) (n : nat) : strncmp s s n = 0.
Proof.
  revert s. induction n as [| n IH]; intros [| c r]; cbn; try reflexivity.
  rewrite Z.eqb_refl. destruct (u8 c =? 0); [reflexivity | apply IH].
Qed.

Lemma same_entry_refl (i : instr) : same_entry i i = true.
Proof. unfold same_entry. rewrite !Z.eqb_refl, strncmp_refl. reflexivity. Qed.

Lemma nth_insert_other {A} (i j : nat) (v d : A) (l : list A) :
  i <> j -> nth j (<[i := v]> l) d = nth j l d.
Proof.
  revert i j. induction l as [| y l IH]; intros i j Hij; [reflexivity |].
  destruct i, j; cbn; try reflexivity; [congruence |]. apply IH. congruence.
Qed.

Lemma nth_in_range {A} (i : nat) (l : list A) (d : A) (v : A) :
  nth i l d = v -> v <> d -> (i < length l)%nat.
Proof.
  intros H Hv. destruct (decide (i < length l)%nat) as [| Hn]; [lia |].
  rewrite nth_overflow in H by lia. congruence.
Qed.

Lemma insert_size (ht : hashtable) (i : instr) :
  ht_size (snd (hashtable_insert ht i)) = ht_size ht.
Proof.
  unfold hashtable_insert. destruct (bucket ht _); [destruct (existsb _ _) |]; reflexivity.
Qed.

Lemma insert_bucket_index (ht : hashtable) (i j : instr) :
  bucket_index (snd (hashtable_insert ht i)) j = bucket_index ht j.
Proof. unfold bucket_index. rewrite insert_size. reflexivity. Qed.

Lemma lookup_after_insert (ht : hashtable) (i : instr) :
  ht_wf ht -> hashtable_lookup (snd (hashtable_insert ht i)) i = true.
Proof.
  intros Hwf. pose proof (bucket_index_lt ht i Hwf) as Hlt.
  unfold hashtable_lookup. rewrite insert_bucket_index.
  unfold hashtable_insert. destruct (bucket ht (bucket_index ht i)) as [b |] eqn:Eb.
  - destruct (existsb (fun k => same_entry k i) b) eqn:Ex; cbn [snd].
    + rewrite Eb. exact Ex.
    + unfold bucket. cbn [buckets]. rewrite nth_insert_eq by exact Hlt.
      rewrite existsb_app. cbn. rewrite same_entry_refl, orb_true_r. reflexivity.
  - unfold bucket. cbn [buckets snd]. rewrite nth_insert_eq by exact Hlt.
    cbn. rewrite same_entry_refl. reflexivity.
Qed.

Lemma insert_keeps_lookup (ht : hashtable) (i j : instr) :
  hashtable_lookup ht j = true -> hashtable_lookup (snd (hashtable_insert ht i)) j = true.
Proof.
  unfold hashtable_lookup. rewrite insert_bucket_index. intros Hj.
  destruct (bucket ht (bucket_index ht j)) as [bj |] eqn:Ebj; [| discriminate].
  unfold hashtable_insert.
  destruct (bucket ht (bucket_index ht i)) as [b |] eqn:Eb.
  - destruct (existsb (fun k => same_entry k i) b); cbn [snd]; [rewrite Ebj; exact Hj |].
    unfold bucket in *. cbn [buckets].
    destruct (decide (bucket_index ht i = bucket_index ht j)) as [E | E].
    + rewrite <- E in *. rewrite Eb in Ebj. injection Ebj as <-.
      rewrite nth_insert_eq by (eapply nth_in_range; [exact Eb | discriminate]).
      rewrite existsb_app, Hj. reflexivity.
    + rewrite nth_insert_other by exact E. rewrite Ebj. exact Hj.
  - unfold bucket in *. cbn [buckets snd].
    destruct (decide (bucket_index ht i = bucket_index ht j)) as [E | E].
    + rewrite <- E in Ebj. congruence.
    + rewrite nth_insert_other by exact E. rewrite Ebj. exact Hj.
Qed.

Lemma insert_all_fst (ht : hashtable) (i : instr) (l : list instr) :
  fst (insert_all ht (i :: l)) = fst (insert_all (snd (hashtable_insert ht i)) l).
Proof.
  cbn [insert_all]. destruct (hashtable_insert ht i) as [r ht']. cbn [snd].
  destruct (insert_all ht' l). reflexivity.
Qed.

Lemma insert_all_lookup (l : list instr) (ht : hashtable) (i : instr) :
  ht_wf ht -> hashtable_lookup ht i = true \/ In i l ->
  hashtable_lookup (fst (insert_all ht l)) i = true.
Proof.
  revert ht. induction l as [| k l IH]; intros ht Hwf Hi.
  - destruct Hi as [Hi | []]. exact Hi.
  - rewrite insert_all_fst. apply IH; [apply insert_wf, Hwf |].
    destruct Hi as [Hi | [<- | Hi]].
    + left. apply insert_keeps_lookup, Hi.
    + left. apply lookup_after_insert, Hwf.
    + right. exact Hi.
Qed.

Lemma hashtable_new_wf (S : N) (ht0 : hashtable) :
  hashtable_new S = Some ht0 -> ht_wf ht0 /\ buckets ht0 = repeat None (N.to_nat S).
Proof.
  unfold hashtable_new. destruct (S =? 0)%N eqn:ES; [discriminate |].
  intros H. injection H as <-. apply N.eqb_neq in ES.
  split; [split; cbn; [lia | rewrite repeat_length; lia] | reflexivity].
Qed.

Lemma stored_insert (l : list (option (list instr))) (idx : nat) (v : list instr) :
  (idx < length l)%nat ->
  stored (<[idx := Some v]> l) =
  stored l + Z.of_nat (length v) - match nth idx l None with Some b => Z.of_nat (length b) | None => 0 end.
Proof.
  revert idx. induction l as [| x l IH]; intros idx Hidx; cbn in *; [lia |].
  destruct idx as [| idx]; cbn.
  - destruct x; lia.
  - rewrite IH by lia. destruct x; lia.
Qed.

Lemma insert_balance (ht : hashtable) (i : instr) :
  ht_wf ht ->
  let ht' := snd (hashtable_insert ht i) in
  entries ht' - count_filled (buckets ht') - collisions ht' =
    entries ht - count_filled (buckets ht) - collisions ht /\
  entries ht' - stored (buckets ht') = entries ht - stored (buckets ht).
Proof.
  intros Hwf. pose proof (bucket_index_lt ht i Hwf) as Hlt. cbv zeta.
  unfold hashtable_insert. destruct (bucket ht (bucket_index ht i)) as [b |] eqn:Eb.
  - destruct (existsb (fun k => same_entry k i) b); cbn [snd]; [lia |].
    unfold bucket in Eb. cbn [buckets entries collisions].
    rewrite count_filled_insert, stored_insert, Eb by exact Hlt.
    rewrite length_app. cbn [length]. lia.
  - unfold bucket in Eb. cbn [buckets entries collisions snd].
    rewrite count_filled_insert, stored_insert, Eb by exact Hlt. cbn. lia.
Qed.

Lemma insert_all_balance (l : list instr) (ht : hashtable) :
  ht_wf ht ->
  let htf := fst (insert_all ht l) in
  ht_wf htf /\
  entries htf - count_filled (buckets htf) - collisions htf =
    entries ht - count_filled (buckets ht) - collisions ht /\
  entries htf - stored (buckets htf) = entries ht - stored (buckets ht).
Proof.
  revert ht. induction l as [| i l IH]; intros ht Hwf; cbv zeta.
  - cbn. auto.
  - rewrite insert_all_fst.
    destruct (IH _ (insert_wf ht i Hwf)) as (Hw & H1 & H2).
    destruct (insert_balance ht i Hwf) as [B1 B2].
    split; [exact Hw | split; lia].
Qed.

End TracesTable.

(** A table created by [hashtable_new] finds no instruction; after a
    sequence of [hashtable_insert] calls, [hashtable_lookup] finds every
    inserted instruction, whether its insertion returned true or false. *)
Theorem traces_lookup_finds_inserted (S : N) (ht0 : Traces.hashtable) :
  Traces.hashtable_new S = Some ht0 ->
  (forall i, Traces.hashtable_lookup ht0 i = false) /\
  (forall (l : list Traces.instr) (i : Traces.instr),
     In i l -> Traces.hashtable_lookup (fst (Traces.insert_all ht0 l)) i = true).
Proof.
  intros Hnew. destruct (hashtable_new_wf S ht0 Hnew) as [Hwf Hb]. split.
  - intros i. unfold Traces.hashtable_lookup, Traces.bucket. rewrite Hb, nth_repeat.
    reflexivity.
  - intros l i Hi. apply insert_all_lookup; [exact Hwf | right; exact Hi].
Qed.

Lemma traces_lookup_finds_inserted_witness :
  Traces.hashtable_new 4 = Some TracesTests.ht4 /\
  Traces.hashtable_lookup TracesTests.ht4 (hd (Traces.mk_instr 0 0 []) TracesTests.ins) = false /\
  Traces.hashtable_lookup (fst (Traces.insert_all TracesTests.ht4 TracesTests.ins))
    (hd (Traces.mk_instr 0 0 []) TracesTests.ins) = true.
Proof.
  assert (Hn : Traces.hashtable_new 4 = Some TracesTests.ht4) by reflexivity.
  destruct (traces_lookup_finds_inserted 4 TracesTests.ht4 Hn) as [P Q].
  split; [exact Hn |]. split; [apply P |].
  apply Q. left. reflexivity.
Defined.

(** [hashtable_insert] refuses an instruction, returning false and leaving
    the table as it was, exactly when [hashtable_lookup] already finds it;
    otherwise it returns true. *)
Theorem traces_insert_refused_iff_found (ht : Traces.hashtable) (i : Traces.instr) :
  Traces.hashtable_insert ht i =
    if Traces.hashtable_lookup ht i then (false, ht)
    else (true, snd (Traces.hashtable_insert ht i)).
Proof.
  unfold Traces.hashtable_lookup, Traces.hashtable_insert.
  destruct (Traces.bucket ht (Traces.bucket_index ht i)) as [b |]; [| reflexivity].
  destruct (existsb _ b); reflexivity.
Qed.

(** An instruction found in a table is still found after any further
    [hashtable_insert]: insertion never loses an entry. *)
Theorem traces_insert_keeps_found (ht : Traces.hashtable) (i j : Traces.instr) :
  Traces.hashtable_lookup ht j = true ->
  Traces.hashtable_lookup (snd (Traces.hashtable_insert ht i)) j = true.
Proof. apply insert_keeps_lookup. Qed.

Lemma traces_insert_keeps_found_witness :
  let j := Traces.mk_instr 0xabad1dea 2 [Byte.xbb; Byte.xcc] in
  let i := Traces.mk_instr 0x1234 1 [Byte.x90] in
  Traces.hashtable_lookup TracesTests.run j = true /\
  Traces.hashtable_lookup (snd (Traces.hashtable_insert TracesTests.run i)) j = true.
Proof.
  cbv zeta.
  assert (H : Traces.hashtable_lookup TracesTests.run
                (Traces.mk_instr 0xabad1dea 2 [Byte.xbb; Byte.xcc]) = true)
    by (vm_compute; reflexivity).
  split; [exact H |]. apply traces_insert_keeps_found. exact H.
Defined.

(** For a table created by [hashtable_new] and filled by
    [hashtable_insert], [entries] is the number of non-empty buckets plus
    [collisions], and it is the number of instruction records the buckets
    hold. *)
Theorem traces_counters_balance (S : N) (ht0 : Traces.hashtable) (l : list Traces.instr) :
  Traces.hashtable_new S = Some ht0 ->
  let ht := fst (Traces.insert_all ht0 l) in
  Traces.hashtable_entries ht =
    Traces.hashtable_filled_buckets ht + Traces.hashtable_collisions ht /\
  Traces.hashtable_entries ht = stored (Traces.buckets ht).
Proof.
  intros Hnew. destruct (hashtable_new_wf S ht0 Hnew) as [Hwf Hb]. cbv zeta.
  destruct (insert_all_balance l ht0 Hwf) as (Hw & H1 & H2).
  unfold Traces.hashtable_entries, Traces.hashtable_collisions.
  rewrite filled_buckets_count by exact Hw.
  assert (E : Traces.entries ht0 = 0 /\ Traces.collisions ht0 = 0).
  { unfold Traces.hashtable_new in Hnew. destruct (S =? 0)%N; [discriminate |].
    injection Hnew as <-. split; reflexivity. }
  assert (F : forall n, count_filled (repeat None n) = 0 /\ stored (repeat None n) = 0)
    by (induction n as [| n [IH1 IH2]]; cbn; auto).
  rewrite Hb in H1, H2. destruct (F (N.to_nat S)) as [F1 F2]. lia.
Qed.

Lemma traces_counters_balance_witness :
  Traces.hashtable_new 4 = Some TracesTests.ht4 /\
  Traces.hashtable_entries (fst (Traces.insert_all TracesTests.ht4 TracesTests.ins)) =
    Traces.hashtable_filled_buckets (fst (Traces.insert_all TracesTests.ht4 TracesTests.ins)) +
    Traces.hashtable_collisions (fst (Traces.insert_all TracesTests.ht4 TracesTests.ins)).
Proof.
  assert (Hn : Traces.hashtable_new 4 = Some TracesTests.ht4) by reflexivity.
  split; [exact Hn |].
  destruct (traces_counters_balance 4 TracesTests.ht4 TracesTests.ins Hn) as [P _].
  exact P.
Defined.

(** ** traces.c: traces *)

Section TracesTraceMore.
Import Traces.

Lemma compare_loop_sym (n1 n2 : list nat) (c : Z) :
  compare_loop n1 n2 c = compare_loop n2 n1 c.
Proof.
  revert n2 c. induction n1 as [| x r1 IH]; intros [| y r2] c; try reflexivity.
  cbn [compare_loop]. rewrite Nat.eqb_sym.
  destruct (Nat.eqb y x); [| reflexivity].
  destruct r1 as [| a1 r1'], r2 as [| a2 r2']; try reflexivity. apply IH.
Qed.

End TracesTraceMore.

(** On a non-empty trace, [trace_get] returns the instruction at every
    position [1 .. trace_length], NULL for every position beyond the tail,
    and fails with [EINVAL] for position 0. *)
Theorem trace_get_nonempty (tr : Traces.trace) :
  tr <> [] ->
  Traces.trace_get tr 0 = Traces.Einval /\
  (forall k, 1 <= k <= Traces.trace_length tr ->
     exists p, nth_error tr (Z.to_nat (k - 1)) = Some p /\
               Traces.trace_get tr k = Traces.Ok (Some p)) /\
  (forall k, Traces.trace_length tr < k -> Traces.trace_get tr k = Traces.Ok None).
Proof.
  intros Hne. rewrite trace_length_eq. split; [reflexivity |]. split.
  - intros k Hk. unfold Traces.trace_get.
    destruct (k <? 1) eqn:E; [apply Z.ltb_lt in E; lia |].
    rewrite trace_get_loop_in by lia.
    destruct (nth_error tr (Z.to_nat (k - 1))) as [p |] eqn:Ep.
    + exists p. split; reflexivity.
    + apply nth_error_None in Ep. lia.
  - intros k Hk. unfold Traces.trace_get.
    destruct (k <? 1) eqn:E.
    + apply Z.ltb_lt in E. destruct tr; [congruence | cbn in Hk; lia].
    + apply trace_get_loop_out; [exact Hne | lia].
Qed.

Lemma trace_get_nonempty_witness :
  [7%nat; 8%nat; 9%nat] <> [] /\
  Traces.trace_get [7%nat; 8%nat; 9%nat] 4 = Traces.Ok None.
Proof.
  assert (H : [7%nat; 8%nat; 9%nat] <> []) by discriminate.
  split; [exact H |].
  destruct (trace_get_nonempty _ H) as (_ & _ & P). apply P. reflexivity.
Defined.

(** [trace_compare] does not depend on the order of its arguments. *)
Theorem trace_compare_sym (t1 t2 : Traces.trace) :
  Traces.trace_compare t1 t2 = Traces.trace_compare t2 t1.
Proof.
  unfold Traces.trace_compare.
  destruct t1 as [| x r1], t2 as [| y r2]; try reflexivity.
  apply compare_loop_sym.
Qed.

(** ** trace.c: [is_power_2] *)

Section PowerTwo.
Import Trace.

Lemma is_power_2_loop_spec (f : nat) (n : Z) :
  0 <= n ->
  (is_power_2_loop f n = true <-> exists k, 1 <= k <= Z.of_nat f /\ n = 2 ^ k).
Proof.
  revert n. induction f as [| f IH]; intros n Hn; cbn [is_power_2_loop].
  - split; [discriminate | intros (k & Hk & _); lia].
  - destruct (Z.even n) eqn:Ev.
    + assert (Hn2 : n = 2 * (n / 2)).
      { apply Z.eqb_eq. rewrite Z.even_spec in Ev. destruct Ev as [m ->].
        rewrite Z.mul_comm, Z.div_mul by lia. lia. }
      destruct (n =? 2) eqn:E2.
      * apply Z.eqb_eq in E2. split; [intros _; exists 1; lia | auto].
      * apply Z.eqb_neq in E2. rewrite IH by (apply Z.div_pos; lia). split.
        -- intros (k & Hk & Ek). exists (k + 1). split; [lia |].
           rewrite Z.pow_add_r by lia. lia.
        -- intros (k & Hk & Ek). exists (k - 1).
           assert (k <> 1) by (intros ->; apply E2; exact Ek).
           split; [lia |]. rewrite Ek.
           replace k with (k - 1 + 1) at 1 by lia.
           rewrite Z.pow_add_r, Z.div_mul by lia. reflexivity.
    + split; [discriminate |]. intros (k & Hk & ->).
      rewrite Z.even_pow in Ev by lia. discriminate.
Qed.

End PowerTwo.

(** [is_power_2] on a [uint16_t] holds exactly for the powers [2^k] with
    [k >= 1]: 0 and 1 are not powers of two for it. *)
Theorem is_power_2_spec (n : Z) :
  0 <= n < 2 ^ 16 ->
  (Trace.is_power_2 n = true <-> exists k, 1 <= k /\ n = 2 ^ k).
Proof.
  intros Hn. unfold Trace.is_power_2. destruct (n =? 0) eqn:E0.
  - apply Z.eqb_eq in E0. subst n. split; [discriminate |].
    intros (k & Hk & E). pose proof (Z.pow_pos_nonneg 2 k). lia.
  - rewrite is_power_2_loop_spec by lia. split.
    + intros (k & Hk & E). exists k. lia.
    + intros (k & Hk & E). exists k. split; [| exact E].
      split; [lia |]. destruct (Z_le_gt_dec k 16) as [| Hk']; [lia |].
      assert (2 ^ 16 < 2 ^ k) by (apply Z.pow_lt_mono_r; lia). lia.
Qed.

Lemma is_power_2_spec_witness :
  Trace.is_power_2 1024 = true /\ Trace.is_power_2 1 = false.
Proof.
  split.
  - apply (proj2 (is_power_2_spec 1024 ltac:(lia))). exists 10. split; [lia | reflexivity].
  - destruct (Trace.is_power_2 1) eqn:E; [| reflexivity].
    apply (proj1 (is_power_2_spec 1 ltac:(lia))) in E.
    destruct E as (k & Hk & E).
    assert (2 ^ 1 <= 2 ^ k) by (apply Z.pow_le_mono_r; lia). lia.
Defined.

(** ** trace.c: the node table and the successor arrays *)

Section TraceForward.
Import Trace.
Lemma find_address_eq b a st :
  (forall h, In h b -> (h < length (nodes st))%nat) ->
  find_address b a st = Some (find (addr_is (nodes st) a) b, st).
Proof.
  induction b as [| h b IH]; intros Hb; [reflexivity |].
  cbn [find_address find].
  destruct (lookup_lt_is_Some_2 (nodes st) h (Hb h (or_introl eq_refl))) as [m Hm].
  unfold bind at 1. unfold node_address, bind, get_node, ret. rewrite Hm.
  unfold addr_is at 1. rewrite Hm.
  destruct (_ =? a); [reflexivity |]. apply IH. intros. apply Hb. right. auto.
Qed.

Lemma table_ok_handles st idx b h :
  table_ok st = true -> nth idx (buckets (table st)) None = Some b -> In h b ->
  (h < length (nodes st))%nat.
Proof.
  unfold table_ok. intros H Hb Hh. apply andb_true_iff in H as [_ H].
  rewrite forallb_forall in H.
  specialize (H (Some b)).
  assert (Hin : In (Some b) (buckets (table st))).
  { rewrite <- Hb. apply nth_In. eapply nth_in_range; [exact Hb | discriminate]. }
  specialize (H Hin). rewrite forallb_forall in H. apply Nat.ltb_lt, H, Hh.
Qed.

Lemma hashtable_lookup_eq ins st :
  table_ok st = true ->
  hashtable_lookup ins st =
    Some (match nth (bucket_index (table st) ins) (buckets (table st)) None with
          | None => None
          | Some b => find (addr_is (nodes st) (address ins)) b
          end, st).
Proof.
  intros Hok. unfold hashtable_lookup, bind, get.
  destruct (nth _ _ None) as [b |] eqn:E; [| reflexivity].
  apply find_address_eq. intros h Hh. eapply table_ok_handles; eauto.
Qed.

Lemma addr_is_app ns x a h :
  (h < length ns)%nat -> addr_is (ns ++ [x]) a h = addr_is ns a h.
Proof. intros H. unfold addr_is. rewrite lookup_app_l by exact H. reflexivity. Qed.

Lemma find_addr_app ns x a b :
  (forall h, In h b -> (h < length ns)%nat) ->
  find (addr_is (ns ++ [x]) a) b = find (addr_is ns a) b.
Proof.
  induction b as [| h b IH]; intros Hb; [reflexivity |]. cbn.
  rewrite addr_is_app by (apply Hb; left; auto).
  destruct (addr_is ns a h); [reflexivity |]. apply IH. intros; apply Hb; right; auto.
Qed.

Lemma nth_insert_same {A} (i : nat) (v d : A) (l : list A) :
  (i < length l)%nat -> nth i (<[i := v]> l) d = v.
Proof.
  revert i. induction l as [| y l IH]; intros i Hi; cbn in Hi; [lia |].
  destruct i; cbn; [reflexivity |]. apply IH. lia.
Qed.

Lemma forallb_insert {A} (f : A -> bool) (i : nat) (v : A) (l : list A) :
  forallb f l = true -> f v = true -> forallb f (<[i := v]> l) = true.
Proof.
  revert i. induction l as [| y l IH]; intros i Hl Hv; [reflexivity |].
  cbn in Hl. apply andb_true_iff in Hl as [Hy Hl].
  destruct i; cbn; rewrite ?Hv, ?Hy; cbn; auto.
Qed.

Lemma find_app_first {A} (f : A -> bool) (l1 l2 : list A) :
  find f (l1 ++ l2) = match find f l1 with Some x => Some x | None => find f l2 end.
Proof. induction l1 as [| x l1 IH]; cbn; [reflexivity |]. destruct (f x); auto. Qed.

Lemma forallb_lt_mono (b : list nat) (n m : nat) :
  (n <= m)%nat -> forallb (fun h => h <? n)%nat b = true -> forallb (fun h => h <? m)%nat b = true.
Proof.
  intros Hnm. rewrite !forallb_forall. intros H h Hh.
  specialize (H h Hh). apply Nat.ltb_lt in H. apply Nat.ltb_lt. lia.
Qed.

Lemma table_ok_intro (st : state) :
  0 < ht_size (table st) ->
  length (buckets (table st)) = Z.to_nat (ht_size (table st)) ->
  (forall idx b, nth idx (buckets (table st)) None = Some b ->
     forall h, In h b -> (h < length (nodes st))%nat) ->
  table_ok st = true.
Proof.
  intros Hp Hl Hb. unfold table_ok.
  rewrite (proj2 (Z.ltb_lt _ _) Hp), (proj2 (Nat.eqb_eq _ _) Hl). cbn.
  apply forallb_forall. intros [b |] Hin; [| reflexivity].
  apply forallb_forall. intros h Hh. apply Nat.ltb_lt.
  destruct (In_nth _ _ None Hin) as (idx & _ & Hn). eapply Hb; eauto.
Qed.

Lemma bucket_index_size (t t' : hashtable) (i : instr) :
  ht_size t' = ht_size t -> bucket_index t' i = bucket_index t i.
Proof. unfold bucket_index. intros ->. reflexivity. Qed.

Lemma cfg_new_table ins st :
  table_ok st = true ->
  exists st', cfg_new ins st = Some (length (nodes st), st') /\
    nodes st' = nodes st ++ [fresh_node ins] /\ table_ok st' = true /\
    exists h', hashtable_lookup ins st' = Some (Some h', st') /\
      addr_is (nodes st') (address ins) h' = true /\
      (hashtable_lookup ins st = Some (None, st) -> h' = length (nodes st)).
Proof.
  intros Hok.
  unfold cfg_new. unfold bind at 1 2. unfold get, put.
  unfold bind at 1.
  unfold hashtable_insert.
  unfold bind at 1. unfold get_node.
  cbn [nodes set_nodes].
  rewrite lookup_app_r, Nat.sub_diag by lia. cbn [lookup list_lookup].
  unfold bind at 1. unfold get. cbn [instruction table set_nodes nodes].
  fold (fresh_node ins).
  set (n := length (nodes st)).
  set (ns := nodes st ++ [fresh_node ins]).
  assert (Hns : (n < length ns)%nat) by (unfold ns, n; rewrite length_app; cbn; lia).
  assert (Hlt : forall h, (h < n)%nat -> (h < length ns)%nat) by lia.
  pose proof Hok as Hok'. unfold table_ok in Hok'.
  apply andb_true_iff in Hok' as [Hok' Hall]. apply andb_true_iff in Hok' as [Hpos Hlen].
  apply Z.ltb_lt in Hpos. apply Nat.eqb_eq in Hlen.
  assert (Hidx : (bucket_index (table st) ins < length (buckets (table st)))%nat).
  { unfold bucket_index. rewrite Hlen.
    pose proof (Z.mod_pos_bound (hash_instr ins) (ht_size (table st)) Hpos). lia. }
  assert (Hfresh : addr_is ns (address ins) n = true).
  { unfold addr_is, ns, n. rewrite lookup_app_r, Nat.sub_diag by lia. cbn. apply Z.eqb_refl. }
  rewrite (hashtable_lookup_eq ins st Hok).
  destruct (nth (bucket_index (table st) ins) (buckets (table st)) None) as [b |] eqn:Eb.
  - assert (Hb : forall h, In h b -> (h < n)%nat) by (intros h Hh; eapply table_ok_handles; eauto).
    unfold bind at 1. rewrite find_address_eq
      by (intros h Hh; cbn [nodes set_nodes]; apply Hlt, Hb, Hh).
    cbn [nodes set_nodes]. fold ns. unfold ns. rewrite find_addr_app by exact Hb. fold ns.
    destruct (find (addr_is (nodes st) (address ins)) b) as [d |] eqn:Ed.
    + exists (set_nodes st ns). split; [reflexivity |]. split; [reflexivity |].
      assert (Hok1 : table_ok (set_nodes st ns) = true).
      { apply table_ok_intro; cbn [table set_nodes nodes]; [lia | exact Hlen |].
        intros idx b' Hb' h Hh. apply Hlt. eapply table_ok_handles; eauto. }
      split; [exact Hok1 |]. exists d.
      rewrite (hashtable_lookup_eq ins _ Hok1). cbn [table set_nodes nodes]. rewrite Eb.
      unfold ns. rewrite find_addr_app by exact Hb. rewrite Ed.
      split; [reflexivity |].
      apply find_some in Ed as [Hd Hd']. split; [| congruence].
      rewrite addr_is_app by (apply Hb, Hd). exact Hd'.
    + unfold bind, get, put, ret. cbn [table set_nodes set_table nodes].
      eexists. split; [reflexivity |]. split; [reflexivity |].
      match goal with |- table_ok ?s = true /\ _ => assert (Hok2 : table_ok s = true) end.
      { apply table_ok_intro; cbn [table set_nodes set_table nodes ht_size buckets];
          [lia | rewrite length_insert; exact Hlen |].
        intros idx b' Hb' h Hh.
        destruct (decide (idx = bucket_index (table st) ins)) as [-> | Hne].
        - rewrite nth_insert_same in Hb' by exact Hidx. injection Hb' as <-.
          apply in_app_or in Hh as [Hh | [<- | []]]; [apply Hlt, Hb, Hh | exact Hns].
        - rewrite nth_insert_other in Hb' by congruence.
          apply Hlt. eapply table_ok_handles; eauto. }
      split; [exact Hok2 |]. exists n.
      rewrite (hashtable_lookup_eq ins _ Hok2). cbn [table set_nodes set_table nodes buckets].
      rewrite (bucket_index_size (table st)) by reflexivity.
      rewrite nth_insert_same by exact Hidx. rewrite find_app_first.
      unfold ns at 1. rewrite find_addr_app by exact Hb. rewrite Ed. cbn [find].
      rewrite Hfresh. auto.
  - unfold bind, put, ret. cbn [table set_nodes set_table nodes].
    eexists. split; [reflexivity |]. split; [reflexivity |].
    match goal with |- table_ok ?s = true /\ _ => assert (Hok2 : table_ok s = true) end.
    { apply table_ok_intro; cbn [table set_nodes set_table nodes ht_size buckets];
        [lia | rewrite length_insert; exact Hlen |].
      intros idx b' Hb' h Hh.
      destruct (decide (idx = bucket_index (table st) ins)) as [-> | Hne].
      - rewrite nth_insert_same in Hb' by exact Hidx. injection Hb' as <-.
        destruct Hh as [<- | []]. exact Hns.
      - rewrite nth_insert_other in Hb' by congruence.
        apply Hlt. eapply table_ok_handles; eauto. }
    split; [exact Hok2 |]. exists n.
    rewrite (hashtable_lookup_eq ins _ Hok2). cbn [table set_nodes set_table nodes buckets].
    rewrite (bucket_index_size (table st)) by reflexivity.
    rewrite nth_insert_same by exact Hidx. cbn [find].
    rewrite Hfresh. auto.
Qed.


Lemma bind_some {A B} (m : M A) (k : A -> M B) st a st1 :
  m st = Some (a, st1) -> bind m k st = k a st1.
Proof. unfold bind. intros ->. reflexivity. Qed.

Lemma get_node_some h st c : nodes st !! h = Some c -> get_node h st = Some (c, st).
Proof. unfold get_node. intros ->. reflexivity. Qed.

Lemma put_node_some h n st :
  (h < length (nodes st))%nat -> put_node h n st = Some (tt, set_nodes st (<[h := n]> (nodes st))).
Proof. unfold put_node. intros H. destruct (decide _); [reflexivity | lia]. Qed.

Lemma cell_write_some a i v st :
  0 <= i < Z.of_nat (length a) -> cell_write a i v st = Some (<[Z.to_nat i := v]> a, st).
Proof.
  unfold cell_write. intros H.
  destruct (0 <=? i) eqn:E1, (i <? Z.of_nat (length a)) eqn:E2; cbn [andb];
    [reflexivity | apply Z.ltb_ge in E2; lia | apply Z.leb_gt in E1; lia | apply Z.leb_gt in E1; lia].
Qed.

Lemma cell_read_some a i st :
  0 <= i < Z.of_nat (length a) -> cell_read a i st = Some (nth (Z.to_nat i) a None, st).
Proof.
  unfold cell_read. intros H.
  destruct (0 <=? i) eqn:E1, (i <? Z.of_nat (length a)) eqn:E2; cbn [andb];
    [reflexivity | apply Z.ltb_ge in E2; lia | apply Z.leb_gt in E1; lia | apply Z.leb_gt in E1; lia].
Qed.

Lemma lookup_insert_some (ns : list cfg_node) (i j : nat) (v : cfg_node) :
  (j < length ns)%nat -> exists m, <[i := v]> ns !! j = Some m.
Proof.
  intros H. destruct (lookup_lt_is_Some_2 (<[i := v]> ns) j) as [m Hm];
    [rewrite length_insert; exact H | eauto].
Qed.

Ltac run_step :=
  cbv beta;
  match goal with
  | |- context [bind (get_node ?h) ?k ?s] =>
      let m := fresh "m" in let Hm := fresh "Hm" in
      destruct (nodes s !! h) as [m |] eqn:Hm;
      [rewrite (bind_some (get_node h) k s m s (get_node_some h s m Hm))
      | exfalso; apply lookup_ge_None_1 in Hm; cbn [nodes set_nodes] in Hm;
        rewrite ?length_insert in Hm; lia]
  | |- context [bind (put_node ?h ?n) ?k ?s] =>
      rewrite (bind_some (put_node h n) k s tt _
                 (put_node_some h n s ltac:(cbn [nodes set_nodes]; rewrite ?length_insert; lia)))
  end.

Lemma link_some src new slot st c :
  nodes st !! src = Some c -> (new < length (nodes st))%nat ->
  0 <= slot < Z.of_nat (length (successor c)) ->
  exists st', link src new slot st = Some (tt, st').
Proof.
  intros Hsrc Hnew Hslot.
  assert (Hs : (src < length (nodes st))%nat) by (apply lookup_lt_Some in Hsrc; exact Hsrc).
  unfold link.
  rewrite (bind_some _ _ _ _ _ (get_node_some _ _ _ Hsrc)). cbv beta.
  rewrite (bind_some _ _ _ _ _ (cell_write_some _ _ (Some new) st Hslot)).
  repeat run_step.
  eexists. apply put_node_some. cbn [nodes set_nodes]. rewrite ?length_insert. lia.
Qed.








End TraceForward.

(** On a well-formed table, [cfg_new] never fails: it appends a
    zero-initialised node, whose handle is the former size of the store,
    keeps the table well formed, and afterwards [hashtable_lookup] of the
    instruction finds a node at its address, the new node itself when no
    node with that address was registered before. *)
Theorem cfg_new_registers (ins : Trace.instr) (st : Trace.state) :
  table_ok st = true ->
  exists st', Trace.cfg_new ins st = Some (length (Trace.nodes st), st') /\
    Trace.nodes st' = Trace.nodes st ++ [fresh_node ins] /\ table_ok st' = true /\
    exists h', Trace.hashtable_lookup ins st' = Some (Some h', st') /\
      addr_is (Trace.nodes st') (Trace.address ins) h' = true /\
      (Trace.hashtable_lookup ins st = Some (None, st) -> h' = length (Trace.nodes st)).
Proof. apply cfg_new_table. Qed.

Lemma cfg_new_registers_witness :
  table_ok Trace.Scenario.st0 = true /\
  exists st', Trace.cfg_new Trace.Scenario.iA Trace.Scenario.st0 = Some (0%nat, st').
Proof.
  assert (H : table_ok Trace.Scenario.st0 = true) by (vm_compute; reflexivity).
  split; [exact H |].
  destruct (cfg_new_registers Trace.Scenario.iA Trace.Scenario.st0 H) as (st' & Hc & _).
  exists st'. exact Hc.
Defined.



(** [cfg_insert] from a BASIC node that already has its successor, towards
    an instruction whose address is not in the table: the node of the
    instruction is created and returned, but no edge is recorded, neither
    on the BASIC node nor on the new one ([nb_in] stays 0). *)
Theorem basic_extra_successor_dropped (st : Trace.state) (x : nat) (c : Trace.cfg_node)
  (ins : Trace.instr) :
  Trace.nodes st !! x = Some c -> Trace.type (Trace.instruction c) = Trace.BASIC ->
  nth 0 (Trace.successor c) None <> None ->
  table_ok st = true -> Trace.hashtable_lookup ins st = Some (None, st) ->
  exists st', Trace.cfg_insert x ins st = Some (Some (length (Trace.nodes st)), st') /\
    Trace.nodes st' = Trace.nodes st ++ [fresh_node ins].
Proof.
  intros Hx Hty H0 Hok Hlk.
  destruct (cfg_new_table ins st Hok) as (st1 & Hc & Hns & _).
  exists st1. split; [| exact Hns].
  unfold Trace.cfg_insert.
  rewrite (bind_some _ _ _ _ _ (get_node_some _ _ _ Hx)). cbv beta.
  rewrite (bind_some _ _ _ _ _ Hlk). cbv beta iota.
  rewrite (bind_some _ _ _ _ _ Hc). cbv beta.
  rewrite Hty. cbn [Trace.instr_type_eqb].
  rewrite (bind_some (Trace.ret tt) _ st1 tt st1 eq_refl). cbv beta.
  assert (Hx1 : Trace.nodes st1 !! x = Some c) by (rewrite Hns; apply lookup_app_l_Some, Hx).
  unfold Trace.aux_cfg_insert.
  rewrite (bind_some _ _ _ _ _ (get_node_some _ _ _ Hx1)). cbv beta.
  rewrite Hty. cbn [Trace.instr_type_eqb].
  assert (Hl : (0 < length (Trace.successor c))%nat)
    by (destruct (nth 0 (Trace.successor c) None) as [o |] eqn:E;
        [eapply nth_in_range; [exact E | discriminate] | congruence]).
  rewrite (bind_some _ _ _ (negb (Trace.is_some (nth 0 (Trace.successor c) None))) st1).
  2: { unfold Trace.bind. rewrite cell_read_some by lia. reflexivity. }
  destruct (nth 0 (Trace.successor c) None) as [o |]; [| congruence].
  reflexivity.
Qed.

Lemma basic_extra_successor_dropped_witness :
  exists st', Trace.cfg_insert 0 Trace.Scenario.iC Trace.Scenario.ab_st =
                Some (Some 2%nat, st') /\
              Trace.nodes st' = Trace.nodes Trace.Scenario.ab_st ++ [fresh_node Trace.Scenario.iC].
Proof.
  exact (basic_extra_successor_dropped Trace.Scenario.ab_st 0
           (Trace.Scenario.node_of Trace.Scenario.ab_st 0) Trace.Scenario.iC
           ltac:(vm_compute; reflexivity) ltac:(vm_compute; reflexivity)
           ltac:(vm_compute; discriminate) ltac:(vm_compute; reflexivity)
           ltac:(vm_compute; reflexivity)).
Defined.

(** [cfg_insert] from a CALL node [x] towards an instruction whose address
    is not in the table (while [nb_name + 1] is a cell of [function_entry]
    and [depth] one of [stack]): the new node [n] is returned, [nb_name]
    is incremented, [get_function_entry (get_nb_name ())] is [n], and [x]
    is pushed on [stack] at the former [depth], which is incremented. *)
Theorem call_registers_function (st : Trace.state) (x : nat) (c : Trace.cfg_node)
  (ins : Trace.instr) :
  Trace.nodes st !! x = Some c -> Trace.type (Trace.instruction c) = Trace.CALL ->
  (0 < length (Trace.successor c))%nat ->
  table_ok st = true -> Trace.hashtable_lookup ins st = Some (None, st) ->
  length (Trace.function_entry st) = 256%nat -> length (Trace.stack st) = 256%nat ->
  0 <= Trace.nb_name st < 255 -> 0 <= Trace.depth st < 256 ->
  exists st', Trace.cfg_insert x ins st = Some (Some (length (Trace.nodes st)), st') /\
    Trace.nb_name st' = Trace.nb_name st + 1 /\
    nth (Z.to_nat (Trace.nb_name st')) (Trace.function_entry st') None =
      Some (length (Trace.nodes st)) /\
    Trace.depth st' = Trace.depth st + 1 /\
    nth (Z.to_nat (Trace.depth st)) (Trace.stack st') None = Some x.
Proof.
  intros Hx Hty Hl Hok Hlk Hf Hs Hn Hd.
  destruct (cfg_new_table ins st Hok) as (st1 & Hc & Hns & _).
  pose proof (cfg_new_inv _ _ _ _ Hc) as [_ Hst1].
  set (n := length (Trace.nodes st)) in *.
  unfold Trace.cfg_insert.
  rewrite (bind_some _ _ _ _ _ (get_node_some _ _ _ Hx)). cbv beta.
  rewrite (bind_some _ _ _ _ _ Hlk). cbv beta iota.
  rewrite (bind_some _ _ _ _ _ Hc). cbv beta.
  rewrite Hty. cbn [Trace.instr_type_eqb].
  assert (F : Trace.nb_name st1 = Trace.nb_name st /\ Trace.depth st1 = Trace.depth st /\
              Trace.stack st1 = Trace.stack st /\ Trace.function_entry st1 = Trace.function_entry st)
    by (rewrite Hst1; repeat split).
  destruct F as (F1 & F2 & F3 & F4).
  match goal with |- exists _, Trace.bind ?blk _ ?s = _ /\ _ =>
    assert (Hb : exists st2, blk s = Some (tt, st2) /\ Trace.nodes st2 = Trace.nodes st1 /\
              Trace.nb_name st2 = Trace.nb_name st + 1 /\
              nth (Z.to_nat (Trace.nb_name st + 1)) (Trace.function_entry st2) None = Some n /\
              Trace.depth st2 = Trace.depth st + 1 /\
              nth (Z.to_nat (Trace.depth st)) (Trace.stack st2) None = Some x)
  end.
  { cbv [Trace.bind Trace.get Trace.put Trace.push_caller Trace.stack_write]. cbv beta iota.
    cbn [Trace.nb_name Trace.set_nb_name Trace.function_entry].
    rewrite F1, F4, wrap16_small by lia.
    rewrite cell_write_some by (rewrite Hf; lia).
    cbn [Trace.depth Trace.stack Trace.set_function_entry Trace.set_nb_name].
    rewrite F2, F3. rewrite cell_write_some by (rewrite Hs; lia).
    eexists. split; [reflexivity |].
    cbn [Trace.depth Trace.stack Trace.set_stack Trace.set_function_entry Trace.set_nb_name
         Trace.set_depth Trace.nodes Trace.nb_name Trace.function_entry].
    split; [reflexivity |]. split; [reflexivity |].
    split; [apply nth_insert_same; rewrite ?F4, Hf; lia |].
    split; [rewrite ?F2; apply wrap16_small; lia |].
    apply nth_insert_same. rewrite ?F3, Hs. lia. }
  destruct Hb as (st2 & Hb & Hn2 & Hnb & Hfe & Hdp & Hst).
  rewrite (bind_some _ _ _ _ _ Hb). cbv beta.
  assert (Hx2 : Trace.nodes st2 !! x = Some c) by (rewrite Hn2, Hns; apply lookup_app_l_Some, Hx).
  assert (Hnew2 : (n < length (Trace.nodes st2))%nat) by (rewrite Hn2, Hns, length_app; cbn; lia).
  unfold Trace.aux_cfg_insert.
  rewrite (bind_some _ _ _ _ _ (get_node_some _ _ _ Hx2)). cbv beta.
  rewrite Hty. cbn [Trace.instr_type_eqb].
  rewrite (bind_some _ _ _ (negb (Trace.is_some (nth 0 (Trace.successor c) None))) st2).
  2: { unfold Trace.bind. rewrite cell_read_some by lia. reflexivity. }
  destruct (nth 0 (Trace.successor c) None) as [o |]; cbn [Trace.is_some negb].
  - exists st2. rewrite Hnb. auto.
  - destruct (link_some x n 0 st2 c Hx2 Hnew2 ltac:(lia)) as [st' Hlk'].
    destruct (link_inv _ _ _ _ _ _ _ Hlk' Hx2) as (_ & _ & _ & _ & _ & Hst').
    rewrite (bind_some _ _ _ _ _ Hlk'). exists st'. rewrite Hst'. cbn.
    rewrite Hnb. auto.
Qed.

Lemma call_registers_function_witness :
  exists st', Trace.cfg_insert 1 Trace.Scenario.iC (Trace.Scenario.ab_st) =
                Some (Some 2%nat, st') /\
              Trace.nb_name st' = 1 /\
              nth 1 (Trace.function_entry st') None = Some 2%nat.
Proof.
  destruct (call_registers_function Trace.Scenario.ab_st 1
              (Trace.Scenario.node_of Trace.Scenario.ab_st 1) Trace.Scenario.iC
              ltac:(vm_compute; reflexivity) ltac:(vm_compute; reflexivity)
              ltac:(apply Nat.ltb_lt; vm_compute; reflexivity) ltac:(vm_compute; reflexivity)
              ltac:(vm_compute; reflexivity) ltac:(vm_compute; reflexivity)
              ltac:(vm_compute; reflexivity)
              ltac:(split; [apply Z.leb_le | apply Z.ltb_lt]; vm_compute; reflexivity)
              ltac:(split; [apply Z.leb_le | apply Z.ltb_lt]; vm_compute; reflexivity))
    as (st' & Hc & Hnb & Hfe & _).
  exists st'. split; [exact Hc |]. split; [exact Hnb |]. rewrite Hnb in Hfe. exact Hfe.
Defined.

(** ** The instruction lists of trace.c *)

Section TraceListProofs.
Import Trace TraceList.

Lemma chain_det hp p l1 l2 : chain hp p l1 -> chain hp p l2 -> l1 = l2.
Proof.
  intros H1. revert l2. induction H1 as [| q n ps Hq Hc IH]; intros l2 H2;
    inversion H2 as [| q' n' ps' Hq' Hc']; subst; [reflexivity |].
  rewrite Hq in Hq'. injection Hq' as <-. f_equal. apply IH. exact Hc'.
Qed.

Lemma chainb_spec hp p ps : chainb hp p ps = true <-> chain hp p ps.
Proof.
  revert p. induction ps as [| q ps IH]; intros [p |]; cbn.
  - split; [discriminate | inversion 1].
  - split; [constructor | reflexivity].
  - split.
    + intros H. apply andb_prop in H as [E H]. apply Nat.eqb_eq in E as ->.
      destruct (hp !! q) as [n |] eqn:En; [| discriminate].
      apply chain_cons with n; [exact En | apply IH; exact H].
    + inversion 1 as [| ? n ? En Hc]; subst. rewrite Nat.eqb_refl, En. cbn.
      apply IH. exact Hc.
  - split; [discriminate | inversion 1].
Qed.

Lemma chain_suffix hp pre x post p :
  chain hp p (pre ++ x :: post) -> chain hp (Some x) (x :: post).
Proof.
  revert p. induction pre as [| y pre IH]; intros p H; [inversion H; subst; exact H |].
  inversion H; subst. eapply IH; eassumption.
Qed.

Lemma chain_nodup hp p ps : chain hp p ps -> NoDup ps.
Proof.
  induction 1 as [| q n ps Hq Hc IH]; constructor; [| exact IH].
  intros Hin. apply list_elem_of_In, in_split in Hin as (l1 & l2 & ->).
  pose proof (chain_suffix _ _ _ _ _ Hc) as Hs.
  pose proof (chain_cons hp q n _ Hq Hc) as Hs'.
  pose proof (chain_det _ _ _ _ Hs Hs') as E.
  apply (f_equal (@length nat)) in E. cbn in E. rewrite length_app in E. cbn in E. lia.
Qed.

Lemma chain_lookup hp p ps q : chain hp p ps -> In q ps -> exists n, hp !! q = Some n.
Proof.
  induction 1 as [| r n ps Hr Hc IH]; [contradiction |].
  intros [<- | Hin]; [eauto | auto].
Qed.

Lemma chain_frame hp hp' p ps :
  chain hp p ps -> (forall q, In q ps -> hp' !! q = hp !! q) -> chain hp' p ps.
Proof.
  induction 1 as [| r n ps Hr Hc IH]; intros Hf; [constructor |].
  apply chain_cons with n; [rewrite Hf by (left; reflexivity); exact Hr |].
  apply IH. intros q Hq. apply Hf. right. exact Hq.
Qed.

Lemma instrs_frame hp hp' ps :
  (forall q, In q ps -> hp' !! q = hp !! q) -> instrs hp' ps = instrs hp ps.
Proof.
  induction ps as [| q ps IH]; intros Hf; [reflexivity |].
  cbn. rewrite Hf by (left; reflexivity). rewrite IH; [reflexivity |].
  intros r Hr. apply Hf. right. exact Hr.
Qed.

Lemma chain_insert_after hp hp' ins nw p tp ps hd k :
  chain hp hd ps -> NoDup ps -> nth_error ps k = Some p -> hp !! p = Some tp ->
  hp' !! p = Some (mk_tnode (tinstr tp) (Some nw)) ->
  hp' !! nw = Some (mk_tnode ins (next tp)) ->
  (forall q, In q ps -> q <> p -> hp' !! q = hp !! q) -> ~ In nw ps ->
  chain hp' hd (take (S k) ps ++ nw :: drop (S k) ps) /\
  instrs hp' (take (S k) ps ++ nw :: drop (S k) ps) =
    take (S k) (instrs hp ps) ++ ins :: drop (S k) (instrs hp ps).
Proof.
  intros Hc. revert k. induction Hc as [| q n ps Hq Hc IH];
    intros k Hnd Hk Htp Hp' Hnw Hf Hnin; [destruct k; discriminate |].
  apply NoDup_cons in Hnd as [Hqn Hnd].
  destruct k as [| k].
  - cbn in Hk. injection Hk as <-. rewrite Hq in Htp. injection Htp as <-.
    assert (Hfr : forall r, In r ps -> hp' !! r = hp !! r).
    { intros r Hr. apply Hf; [right; exact Hr | intros <-; apply Hqn; apply list_elem_of_In; exact Hr]. }
    cbn [firstn skipn]; rewrite ?take_0, ?drop_0; cbn [app]. split.
    + apply chain_cons with (mk_tnode (tinstr n) (Some nw)); [exact Hp' |].
      apply chain_cons with (mk_tnode ins (next n)); [exact Hnw |].
      apply chain_frame with hp; [exact Hc | exact Hfr].
    + cbn. rewrite ?take_0, ?drop_0. cbn. rewrite Hq, Hp', Hnw. cbn. rewrite instrs_frame with (hp := hp) by exact Hfr.
      reflexivity.
  - cbn in Hk. assert (Hpq : q <> p).
    { intros <-. apply Hqn. apply list_elem_of_In. eapply nth_error_In. exact Hk. }
    assert (Hq' : hp' !! q = hp !! q) by (apply Hf; [left; reflexivity | exact Hpq]).
    destruct (IH k Hnd Hk Htp Hp' Hnw) as [IH1 IH2].
    { intros r Hr Hrp. apply Hf; [right; exact Hr | exact Hrp]. }
    { intros Hin. apply Hnin. right. exact Hin. }
    cbn [firstn skipn]; rewrite ?take_0, ?drop_0; cbn [app]. split.
    + apply chain_cons with n; [rewrite Hq'; exact Hq | exact IH1].
    + cbn. rewrite Hq', Hq. cbn. rewrite IH2. reflexivity.
Qed.

Lemma chain_lt hp p ps q : chain hp p ps -> In q ps -> (q < length hp)%nat.
Proof.
  intros Hc Hin. destruct (chain_lookup _ _ _ _ Hc Hin) as [n Hn].
  eapply lookup_lt_Some. exact Hn.
Qed.

Lemma trace_insert_after_rel (hp : heap) (hd : option nat) (ps : list nat) (k p : nat)
    (ins : instr) :
  chain hp hd ps -> nth_error ps k = Some p ->
  exists hp', trace_insert (Some p) ins hp = Some (Some (length hp), hp') /\
    chain hp' hd (take (S k) ps ++ length hp :: drop (S k) ps) /\
    instrs hp' (take (S k) ps ++ length hp :: drop (S k) ps) =
      take (S k) (instrs hp ps) ++ ins :: drop (S k) (instrs hp ps).
Proof.
  intros Hc Hk.
  assert (Hin : In p ps) by (eapply nth_error_In; exact Hk).
  destruct (chain_lookup _ _ _ _ Hc Hin) as [tp Htp].
  pose proof (lookup_lt_Some _ _ _ Htp) as Hplt.
  unfold trace_insert, trace_new. rewrite Htp.
  eexists. split; [reflexivity |].
  match goal with |- chain (<[_ := _]> ?h2) _ _ /\ _ => remember h2 as hp2 eqn:E2 end.
  assert (L2 : length hp2 = S (length hp)).
  { subst hp2. destruct (next tp); rewrite ?length_insert, length_app; cbn; lia. }
  assert (N2 : hp2 !! length hp = Some (mk_tnode ins (next tp))).
  { subst hp2. destruct (next tp) eqn:E.
    - apply list_lookup_insert_eq. rewrite length_app. cbn. lia.
    - rewrite lookup_app_r by lia. rewrite Nat.sub_diag. reflexivity. }
  assert (O2 : forall q, (q < length hp)%nat -> hp2 !! q = hp !! q).
  { intros q Hq. subst hp2. destruct (next tp).
    - rewrite list_lookup_insert_ne by lia. apply lookup_app_l. exact Hq.
    - apply lookup_app_l. exact Hq. }
  apply (chain_insert_after hp _ ins (length hp) p tp).
  - exact Hc.
  - eapply chain_nodup. exact Hc.
  - exact Hk.
  - exact Htp.
  - apply list_lookup_insert_eq. lia.
  - rewrite list_lookup_insert_ne by lia. exact N2.
  - intros q Hq Hqp. rewrite list_lookup_insert_ne by congruence.
    apply O2. eapply chain_lt; eassumption.
  - intros Hn. pose proof (chain_lt _ _ _ _ Hc Hn). lia.
Qed.

Lemma chain_none hp ps : chain hp None ps -> ps = [].
Proof. inversion 1. reflexivity. Qed.

Lemma trace_compare_rel (hp : heap) (p1 p2 : nat) (ps1 ps2 : list nat) (fuel : nat) :
  chain hp (Some p1) ps1 -> chain hp (Some p2) ps2 ->
  (Nat.min (length ps1) (length ps2) <= fuel)%nat ->
  trace_compare fuel (Some p1) (Some p2) hp =
    Some (nth_error ps2 (common (map address (instrs hp ps1))
                                (map address (instrs hp ps2)))).
Proof.
  unfold trace_compare. revert p1 p2 ps2 fuel.
  induction ps1 as [| q1 r1 IH]; intros p1 p2 ps2 fuel H1 H2 Hf; [inversion H1 |].
  inversion H1 as [| ? n1 ? Hn1 Hc1]; subst.
  inversion H2 as [| ? n2 r2 Hn2 Hc2]; subst.
  destruct fuel as [| f]; [cbn in Hf; lia |].
  cbn [compare_loop instrs]. rewrite Hn1, Hn2. cbn [map common].
  destruct (address (tinstr n1) =? address (tinstr n2)) eqn:E; [| reflexivity].
  destruct (next n1) as [t1 |] eqn:E1.
  - destruct (next n2) as [t2 |] eqn:E2.
    + inversion Hc1 as [| ? m1 s1 Hm1 Hs1]; subst.
      inversion Hc2 as [| ? m2 s2 Hm2 Hs2]; subst.
      rewrite IH with (ps2 := t2 :: s2) by (auto; cbn in *; lia). reflexivity.
    + apply chain_none in Hc2 as ->. cbn.
      destruct (instrs hp r1) as [| x xs]; reflexivity.
  - apply chain_none in Hc1 as ->. cbn [instrs map common nth_error].
    destruct (next n2) as [t2 |] eqn:E2.
    + inversion Hc2; subst. reflexivity.
    + apply chain_none in Hc2 as ->. reflexivity.
Qed.

End TraceListProofs.

(** On a well-formed list (following [next] from [hd] visits the nodes
    [ps] and reaches NULL), [trace_insert] at the [k]-th node [p] never
    fails: it allocates the node [length hp] and links it right after [p],
    so the list from [hd] becomes [ps] with the new node at position
    [k+1], holding [ins], every other node keeping its instruction. *)
Theorem trace_insert_after (hp : TraceList.heap) (hd : option nat) (ps : list nat)
    (k p : nat) (ins : Trace.instr) :
  chainb hp hd ps = true -> nth_error ps k = Some p ->
  exists hp', TraceList.trace_insert (Some p) ins hp = Some (Some (length hp), hp') /\
    chainb hp' hd (take (S k) ps ++ length hp :: drop (S k) ps) = true /\
    instrs hp' (take (S k) ps ++ length hp :: drop (S k) ps) =
      take (S k) (instrs hp ps) ++ ins :: drop (S k) (instrs hp ps).
Proof.
  intros Hc Hk. apply chainb_spec in Hc.
  destruct (trace_insert_after_rel hp hd ps k p ins Hc Hk) as (hp' & H1 & H2 & H3).
  exists hp'. split; [exact H1 |]. split; [apply chainb_spec; exact H2 | exact H3].
Qed.

Lemma trace_insert_after_witness :
  exists hp', TraceList.trace_insert (Some 0%nat) Trace.Scenario.iC TraceList.Example.ab =
                Some (Some 2%nat, hp') /\
              chainb hp' (Some 0%nat) [0; 2; 1]%nat = true /\
              instrs hp' [0; 2; 1]%nat = [Trace.Scenario.iA; Trace.Scenario.iC; Trace.Scenario.iB].
Proof.
  destruct (trace_insert_after TraceList.Example.ab (Some 0%nat) [0; 1]%nat 0 0
              Trace.Scenario.iC ltac:(vm_compute; reflexivity) ltac:(vm_compute; reflexivity))
    as (hp' & H1 & H2 & H3).
  exists hp'. split; [exact H1 |]. split; [exact H2 | exact H3].
Defined.

(** On two well-formed non-empty lists with nodes [ps1] and [ps2] (in the
    same heap), [trace_compare] returns the node of the second list that
    follows the longest common prefix of instruction addresses: the node at
    position [j] of [ps2], where [j] is the length of that prefix, or NULL
    when the second list has no node there (it ended, or is a prefix of the
    first). The loop runs at most [min (length ps1) (length ps2)]
    iterations. *)
Theorem trace_compare_suffix (hp : TraceList.heap) (p1 p2 : nat) (ps1 ps2 : list nat)
    (fuel : nat) :
  chainb hp (Some p1) ps1 = true -> chainb hp (Some p2) ps2 = true ->
  (Nat.min (length ps1) (length ps2) <= fuel)%nat ->
  TraceList.trace_compare fuel (Some p1) (Some p2) hp =
    Some (nth_error ps2 (common (map Trace.address (instrs hp ps1))
                                (map Trace.address (instrs hp ps2)))).
Proof.
  intros H1 H2 Hf. apply chainb_spec in H1, H2. exact (trace_compare_rel _ _ _ _ _ _ H1 H2 Hf).
Qed.

Lemma trace_compare_suffix_witness :
  TraceList.trace_compare 2 (Some 0%nat) (Some 2%nat) TraceList.Example.two = Some (Some 3%nat).
Proof.
  rewrite (trace_compare_suffix TraceList.Example.two 0 2 [0; 1]%nat [2; 3]%nat 2
             ltac:(vm_compute; reflexivity) ltac:(vm_compute; reflexivity)
             ltac:(vm_compute; lia)).
  vm_compute. reflexivity.
Defined.

(** ** The counters of the trace.c table *)

Section TablePres.
Import Trace.
Variable P : hashtable -> Prop.










End TablePres.



Section TablePresCode.
Import Trace.
Variable P : hashtable -> Prop.











End TablePresCode.

Section TableCounters.
Import Trace.








End TableCounters.


